(** * Resumable CSV export: the route handlers and the CSV encoder

    A shallow embedding of

    - [src/lib/csvUtils.ts]                 ([CSV_HEADER], [rowToCsvLine]),
    - the job-creation handler              ([POST] of [api/export/route.ts]),
    - the status handler                    ([GET] of the status route),
    - the streaming handler                 ([GET] of the stream route),

    together with the two tables of the migration ([Product], [ExportJob]).

    Conventions.  JavaScript strings are modelled by [string]; every
    character the code tests for is ASCII, so the byte view and the
    UTF-16 view agree on all the operations used.  Integers held in
    [INTEGER] columns are [Z].  A [REAL] column is an IEEE-754 double,
    modelled by the Standard Library's [spec_float].  Time stamps of the
    [ExportJob] table ([createdAt], [updatedAt]) are wall-clock values
    and are left out of the model. *)

From Stdlib Require Import ZArith Lia String Ascii List DecimalString.
From Stdlib Require Import Floats.SpecFloat.
From stdpp Require Import gmap strings list sorting.

Local Open Scope string_scope.
Local Open Scope Z_scope.

(** ** Results of fallible code *)

(** A JavaScript expression either yields a value or throws. *)
Inductive Res (A : Type) : Type :=
| Ok (a : A)
| Throw (err : string).
Arguments Ok {A} a.
Arguments Throw {A} err.

(** ** Characters the CSV code looks at *)

Definition dquote : ascii := "034"%char.
Definition comma : ascii := ","%char.
Definition LF : ascii := "010"%char.
Definition CR : ascii := "013"%char.

Definition str1 (c : ascii) : string := String c EmptyString.

(** ** JavaScript runtime functions used by the encoder *)

Module Js.

(** [s.includes(sub)] *)
Fixpoint includes (s sub : string) : bool :=
  String.prefix sub s
  || match s with
     | EmptyString => false
     | String _ s' => includes s' sub
     end.

(** [s.replace(/c/g, by)] for a one-character pattern [c]. *)
Fixpoint replaceAll (c : ascii) (by_ : string) (s : string) : string :=
  match s with
  | EmptyString => EmptyString
  | String a s' =>
      if Ascii.eqb a c then by_ ++ replaceAll c by_ s'
      else String a (replaceAll c by_ s')
  end.

(** [parts.join(sep)] *)
Fixpoint join (sep : string) (parts : list string) : string :=
  match parts with
  | [] => EmptyString
  | [p] => p
  | p :: ps => p ++ sep ++ join sep ps
  end.

(** Decimal digits of a non-negative integer, and of an integer. *)
Definition digits (n : Z) : string := NilZero.string_of_uint (N.to_uint (Z.to_N n)).
Definition Int_toString (n : Z) : string := NilZero.string_of_int (Z.to_int n).

(** [s.padStart(w, "0")] *)
Definition padStart0 (w : nat) (s : string) : string :=
  string_of_list_ascii (repeat "0"%char (w - String.length s)) ++ s.

(** *** [Number.prototype.toFixed(2)]

    A finite double is [m * 2^e] with a sign.  The magnitude below
    [10^21] is rounded to the nearest hundredth, ties going up, and
    printed with two decimals.  From [10^21] on, [toFixed] hands over to
    [Number::toString], which prints the shortest decimal that reads back
    as the same double, in exponent form. *)

(** The nearest integer to [100 * m * 2^e], the larger one on a tie. *)
Definition hundredths (m : positive) (e : Z) : Z :=
  if 0 <=? e then 100 * Z.pos m * 2 ^ e
  else (200 * Z.pos m + 2 ^ (- e)) / (2 * 2 ^ (- e)).

Definition fixed2 (n : Z) : string :=
  digits (n / 100) ++ "." ++ padStart0 2 (digits (n mod 100)).

(** [10^21 <= m * 2^e] *)
Definition atLeast1e21 (m : positive) (e : Z) : bool :=
  if 0 <=? e then 10 ^ 21 <=? Z.pos m * 2 ^ e
  else 10 ^ 21 * 2 ^ (- e) <=? Z.pos m.

(** The shortest decimal [s * 10^p] inside the rounding interval of the
    double [v = m * 2^e] (an integer, [0 <= e]); the interval is closed
    when [m] is even.  [p] is searched downwards from [fuel]. *)
Definition roundingInterval (m : positive) (e : Z) : Z * Z * bool :=
  let v := Z.pos m * 2 ^ e in
  let above := 2 ^ e in
  let below := if (Z.pos m =? 2 ^ 52) then 2 ^ (e - 1) else 2 ^ e in
  (2 * v - below, 2 * v + above, Z.even (Z.pos m)).

Fixpoint shortest (fuel : nat) (lo2 hi2 : Z) (closed : bool) (v : Z) : Z * Z :=
  let p := Z.of_nat fuel in
  let t := 10 ^ p in
  (* candidates are the multiples s*t with lo2 <= 2*s*t <= hi2 *)
  let smin := if closed then (lo2 + 2 * t - 1) / (2 * t) else lo2 / (2 * t) + 1 in
  let smax := if closed then hi2 / (2 * t) else (hi2 - 1) / (2 * t) in
  if (smin <=? smax) && (0 <? smax) then
    let near := (2 * v + t) / (2 * t) in
    (Z.max smin (Z.min smax near), p)
  else
    match fuel with
    | O => (v, 0)
    | S fuel' => shortest fuel' lo2 hi2 closed v
    end.

Definition exponentForm (s p : Z) : string :=
  let ds := digits s in
  let n := Z.of_nat (String.length ds) + p in
  match ds with
  | EmptyString => EmptyString
  | String d EmptyString => str1 d ++ "e+" ++ digits (n - 1)
  | String d rest => str1 d ++ "." ++ rest ++ "e+" ++ digits (n - 1)
  end.

Definition Number_toString_large (m : positive) (e : Z) : string :=
  let '(lo2, hi2, closed) := roundingInterval m e in
  let '(s, p) := shortest 400 lo2 hi2 closed (Z.pos m * 2 ^ e) in
  exponentForm s p.

Definition toFixed2 (x : spec_float) : string :=
  match x with
  | S754_nan => "NaN"
  | S754_infinity false => "Infinity"
  | S754_infinity true => "-Infinity"
  | S754_zero _ => "0.00"
  | S754_finite s m e =>
      (if s then "-" else EmptyString)
      ++ (if atLeast1e21 m e then Number_toString_large m e
          else fixed2 (hundredths m e))
  end.

(** *** [Date.prototype.toISOString]

    A [Date] holds a time value, milliseconds since the epoch, or is
    invalid; [toISOString] throws a [RangeError] on an invalid date. *)

Inductive Date : Type :=
| Invalid_Date
| Time (t : Z).

(** Civil date of a day number (days since 1970-01-01, proleptic
    Gregorian calendar). *)
Definition civil_from_days (z0 : Z) : Z * Z * Z :=
  let z := z0 + 719468 in
  let era := z / 146097 in
  let doe := z - era * 146097 in
  let yoe := (doe - doe / 1460 + doe / 36524 - doe / 146096) / 365 in
  let y := yoe + era * 400 in
  let doy := doe - (365 * yoe + yoe / 4 - yoe / 100) in
  let mp := (5 * doy + 2) / 153 in
  let d := doy - (153 * mp + 2) / 5 + 1 in
  let m := if mp <? 10 then mp + 3 else mp - 9 in
  ((if m <=? 2 then y + 1 else y), m, d).

Definition pad (w : nat) (n : Z) : string := padStart0 w (digits n).

Definition year_string (y : Z) : string :=
  if (0 <=? y) && (y <=? 9999) then pad 4 y
  else (if y <? 0 then "-" else "+") ++ pad 6 (Z.abs y).

Definition toISOString (d : Date) : Res string :=
  match d with
  | Invalid_Date => Throw "RangeError: Invalid time value"
  | Time t =>
      let day := t / 86400000 in
      let ms := t mod 86400000 in
      let '(y, mo, dd) := civil_from_days day in
      Ok (year_string y ++ "-" ++ pad 2 mo ++ "-" ++ pad 2 dd ++ "T"
          ++ pad 2 (ms / 3600000) ++ ":" ++ pad 2 (ms / 60000 mod 60) ++ ":"
          ++ pad 2 (ms / 1000 mod 60) ++ "." ++ pad 3 (ms mod 1000) ++ "Z")
  end.

End Js.

(** ** [src/lib/csvUtils.ts] *)

Module csvUtils.

Record ProductRow : Type := {
  id : Z;
  name : string;
  category : string;
  price : spec_float;
  quantity : Z;
  status : string;
  createdAt : Js.Date;
}.

Definition CSV_HEADER : string :=
  "id,name,category,price,quantity,status,createdAt" ++ str1 LF.

Definition escapeCsv (val : string) : string :=
  if Js.includes val (str1 comma) || Js.includes val (str1 dquote)
     || Js.includes val (str1 LF)
  then str1 dquote ++ Js.replaceAll dquote (str1 dquote ++ str1 dquote) val
       ++ str1 dquote
  else val.

Definition rowToCsvLine (product : ProductRow) : Res string :=
  match Js.toISOString (createdAt product) with
  | Throw e => Throw e
  | Ok iso =>
      Ok (Js.join ","
            [ Js.Int_toString (id product);
              escapeCsv (name product);
              escapeCsv (category product);
              Js.toFixed2 (price product);
              Js.Int_toString (quantity product);
              escapeCsv (status product);
              iso ]
          ++ str1 LF)
  end.

End csvUtils.

(** ** A reader for the CSV text

    Modelled from the spec: [parseCsv], the RFC 4180 reader the round-trip
    property is phrased with; the repository has no CSV reader.  Fields
    are separated by commas and records end at a line feed, optionally
    preceded by a carriage return; a field that starts with a double quote
    runs to the closing quote, a doubled quote inside standing for one
    quote; a quote inside an unquoted field is an error. *)

Module Rfc4180.

Inductive Mode : Type :=
| Unquoted      (* at the start of, or inside, an unquoted field *)
| Quoted        (* inside a quoted field *)
| QuoteEnd      (* just after a quote met inside a quoted field *)
| QuoteEndCR.   (* after the closing quote and a carriage return *)

Definition isEmpty (s : string) : bool :=
  match s with EmptyString => true | _ => false end.

(** The field without the carriage return of a CR LF line end. *)
Fixpoint dropCR (s : string) : string :=
  match s with
  | EmptyString => EmptyString
  | String c EmptyString => if Ascii.eqb c CR then EmptyString else s
  | String c s' => String c (dropCR s')
  end.

Fixpoint parse (mode : Mode) (fld : string) (rec : list string)
    (recs : list (list string)) (s : string) : option (list (list string)) :=
  match s with
  | EmptyString =>
      match mode with
      | Unquoted =>
          if isEmpty fld && bool_decide (rec = []) then Some recs
          else Some (recs ++ [rec ++ [fld]])%list
      | QuoteEnd => Some (recs ++ [rec ++ [fld]])%list
      | Quoted | QuoteEndCR => None
      end
  | String c s' =>
      match mode with
      | Unquoted =>
          if Ascii.eqb c comma then parse Unquoted EmptyString (rec ++ [fld])%list recs s'
          else if Ascii.eqb c LF then
            parse Unquoted EmptyString [] (recs ++ [rec ++ [dropCR fld]])%list s'
          else if Ascii.eqb c dquote then
            if isEmpty fld then parse Quoted EmptyString rec recs s' else None
          else parse Unquoted (fld ++ str1 c) rec recs s'
      | Quoted =>
          if Ascii.eqb c dquote then parse QuoteEnd fld rec recs s'
          else parse Quoted (fld ++ str1 c) rec recs s'
      | QuoteEnd =>
          if Ascii.eqb c dquote then parse Quoted (fld ++ str1 dquote) rec recs s'
          else if Ascii.eqb c comma then
            parse Unquoted EmptyString (rec ++ [fld])%list recs s'
          else if Ascii.eqb c LF then
            parse Unquoted EmptyString [] (recs ++ [rec ++ [fld]])%list s'
          else if Ascii.eqb c CR then parse QuoteEndCR fld rec recs s'
          else None
      | QuoteEndCR =>
          if Ascii.eqb c LF then
            parse Unquoted EmptyString [] (recs ++ [rec ++ [fld]])%list s'
          else None
      end
  end.

Definition parseCsv (s : string) : option (list (list string)) :=
  parse Unquoted EmptyString [] [] s.

End Rfc4180.

(** ** The two tables and the Prisma client

    [Product] and [ExportJob] follow the migration.  The [filters] column
    holds the JSON text of an object with three string fields; the model
    keeps the object itself, [JSON.parse] after [JSON.stringify] being the
    identity on such objects. *)

Module Filters.
Record t : Type := mk {
  category : string;
  status : string;
  search : string;
}.
End Filters.

Module ExportJob.
Record t : Type := mk {
  id : string;
  filters : Filters.t;
  status : string;
  lastCursor : Z;
  rowsExported : Z;
  totalRows : Z;
}.

(** The [data] argument of [update]: the columns to overwrite. *)
Record data : Type := mkData {
  set_status : option string;
  set_lastCursor : option Z;
  set_rowsExported : option Z;
}.

Definition apply (d : data) (job : t) : t :=
  {| id := id job;
     filters := filters job;
     status := default (status job) (set_status d);
     lastCursor := default (lastCursor job) (set_lastCursor d);
     rowsExported := default (rowsExported job) (set_rowsExported d);
     totalRows := totalRows job |}.
End ExportJob.

(** The [where] object of a [product] query: each key is present or
    absent. *)
Module Where.
Record t : Type := mk {
  category : option string;
  status : option string;
  name_contains : option string;
  id_gt : option Z;
}.

Definition empty : t := mk None None None None.

(** [{ ...where, id: { gt: cursor } }] *)
Definition with_id_gt (w : t) (cursor : Z) : t :=
  mk (category w) (status w) (name_contains w) (Some cursor).
End Where.

Inductive SortOrder : Type := asc | desc.

Record FindManyArgs : Type := {
  where_ : Where.t;
  orderBy_id : SortOrder;
  take_ : nat;
}.

(** How the data source matches [name: { contains: s }] is its own
    business (SQLite compares with [LIKE]); nothing below depends on it. *)
Class DataSource : Type := contains : string → string → bool.

(** The order of [orderBy: { id }]. *)
Definition id_le (p q : csvUtils.ProductRow) : Prop := csvUtils.id p ≤ csvUtils.id q.

#[global] Instance id_le_dec : RelDecision id_le :=
  λ p q, decide (csvUtils.id p ≤ csvUtils.id q).

Section Prisma.
Context `{DataSource}.
Import csvUtils.

Definition holds {A} (cond : option A) (test : A → bool) : bool :=
  match cond with
  | None => true
  | Some a => test a
  end.

Definition matches (w : Where.t) (p : ProductRow) : bool :=
  holds (Where.category w) (String.eqb (category p))
  && holds (Where.status w) (String.eqb (status p))
  && holds (Where.name_contains w) (contains (name p))
  && holds (Where.id_gt w) (λ c, c <? id p).

Definition ordered (o : SortOrder) (rows : list ProductRow) : list ProductRow :=
  match o with
  | asc => merge_sort id_le rows
  | desc => reverse (merge_sort id_le rows)
  end.

(** [prisma.product.findMany({ where, orderBy: { id }, take })] *)
Definition findMany (args : FindManyArgs) (table : list ProductRow) : list ProductRow :=
  take (take_ args) (ordered (orderBy_id args) (filter (matches (where_ args)) table)).

(** [prisma.product.count({ where })] *)
Definition count (w : Where.t) (table : list ProductRow) : Z :=
  Z.of_nat (length (filter (matches w) table)).
End Prisma.

(** [prisma.exportJob.update] rejects when no row has the given id and
    otherwise overwrites the columns named in [data]. *)
Definition exportJob_update (id : string) (d : ExportJob.data)
    (jobs : gmap string ExportJob.t) : Res (gmap string ExportJob.t) :=
  match jobs !! id with
  | None => Throw "PrismaClientKnownRequestError: Record to update not found."
  | Some job => Ok (<[id := ExportJob.apply d job]> jobs)
  end.

(** [prisma.exportJob.create] rejects when the primary key is taken. *)
Definition exportJob_create (job : ExportJob.t)
    (jobs : gmap string ExportJob.t) : Res (gmap string ExportJob.t) :=
  match jobs !! ExportJob.id job with
  | Some _ => Throw "PrismaClientKnownRequestError: Unique constraint failed."
  | None => Ok (<[ExportJob.id job := job]> jobs)
  end.

(** ** What a handler does, one operation after the other *)

(** The [data] of a named server-sent event. *)
Inductive Payload : Type :=
| ProgressData (rowsExported totalRows : Z)
| DoneData (rowsExported : Z)
| ErrorData (message : string).

Inductive Effect : Type :=
| JobFindUnique (id : string) (found : option ExportJob.t)
| JobUpdate (id : string) (d : ExportJob.data)
| JobCreate (job : ExportJob.t)
| ProductFindMany (args : FindManyArgs) (rows : list csvUtils.ProductRow)
| ProductCount (w : Where.t) (n : Z)
| Send (data : string)                       (* [send(data)] *)
| SendEvent (event : string) (data : Payload) (* [sendEvent(event, data)] *)
| Delay (ms : Z)
| Close.                                     (* [controller.close()] *)

(** The database, and the operations completed so far, oldest first. *)
Record World : Type := mkWorld {
  product : list csvUtils.ProductRow;
  exportJob : gmap string ExportJob.t;
  trace : list Effect;
}.

(** A handler returns, throws, or is cut short: [Stopped] stands for the
    process ending (or the handler being abandoned) in the middle of the
    loop.  No [catch] or [finally] block runs after that. *)
Inductive Outcome (A : Type) : Type :=
| Returned (a : A)
| Thrown (err : string)
| Stopped.
Arguments Returned {A} a.
Arguments Thrown {A} err.
Arguments Stopped {A}.

Definition M (A : Type) : Type := World → Outcome A * World.

#[global] Instance M_ret : MRet M := λ A a w, (Returned a, w).

#[global] Instance M_bind : MBind M := λ A B f m w,
  match m w with
  | (Returned a, w') => f a w'
  | (Thrown e, w') => (Thrown e, w')
  | (Stopped, w') => (Stopped, w')
  end.

Definition throw {A} (err : string) : M A := λ w, (Thrown err, w).
Definition stop {A} : M A := λ w, (Stopped, w).

Definition lift {A} (r : Res A) : M A :=
  match r with
  | Ok a => mret a
  | Throw e => throw e
  end.

Definition emit (e : Effect) : M unit := λ w,
  (Returned tt, mkWorld (product w) (exportJob w) (trace w ++ [e])).

(** [try { body } catch (err) { handler }] *)
Definition try_catch {A} (body : M A) (handler : string → M A) : M A := λ w,
  match body w with
  | (Thrown e, w') => handler e w'
  | r => r
  end.

(** [try { body } finally { cleanup }] *)
Definition try_finally {A} (body : M A) (cleanup : M unit) : M A := λ w,
  match body w with
  | (Stopped, w') => (Stopped, w')
  | (r, w') =>
      match cleanup w' with
      | (Returned _, w'') => (r, w'')
      | (Thrown e, w'') => (Thrown e, w'')
      | (Stopped, w'') => (Stopped, w'')
      end
  end.

(** [promise.catch(() => { })] *)
Definition swallow (m : M unit) : M unit := try_catch m (λ _, mret tt).

Section Client.
Context `{DataSource}.

Definition prisma_exportJob_findUnique (id : string) : M (option ExportJob.t) := λ w,
  let found := exportJob w !! id in
  (Returned found,
   mkWorld (product w) (exportJob w) (trace w ++ [JobFindUnique id found])).

Definition prisma_exportJob_update (id : string) (d : ExportJob.data) : M unit := λ w,
  match exportJob_update id d (exportJob w) with
  | Throw e => (Thrown e, w)
  | Ok jobs => (Returned tt, mkWorld (product w) jobs (trace w ++ [JobUpdate id d]))
  end.

Definition prisma_exportJob_create (job : ExportJob.t) : M ExportJob.t := λ w,
  match exportJob_create job (exportJob w) with
  | Throw e => (Thrown e, w)
  | Ok jobs => (Returned job, mkWorld (product w) jobs (trace w ++ [JobCreate job]))
  end.

Definition prisma_product_findMany (args : FindManyArgs) : M (list csvUtils.ProductRow) := λ w,
  let rows := findMany args (product w) in
  (Returned rows,
   mkWorld (product w) (exportJob w) (trace w ++ [ProductFindMany args rows])).

Definition prisma_product_count (wh : Where.t) : M Z := λ w,
  let n := count wh (product w) in
  (Returned n, mkWorld (product w) (exportJob w) (trace w ++ [ProductCount wh n])).
End Client.

(** ** The job-creation handler: [POST] of [api/export/route.ts] *)

Module exportRoute.

(** The request body, as the page posts it: a JSON object whose three
    fields, when present, are strings.  [None] is an absent (or [null])
    field, the two cases [??] treats alike. *)
Record Body : Type := {
  category : option string;
  status : option string;
  search : option string;
}.

Definition truthy (s : string) : bool := negb (String.eqb s EmptyString).

Definition where_of (filters : Filters.t) : Where.t :=
  let where_ := Where.empty in
  let where_ :=
    if truthy (Filters.category filters)
    then Where.mk (Some (Filters.category filters)) (Where.status where_)
           (Where.name_contains where_) (Where.id_gt where_)
    else where_ in
  let where_ :=
    if truthy (Filters.status filters)
    then Where.mk (Where.category where_) (Some (Filters.status filters))
           (Where.name_contains where_) (Where.id_gt where_)
    else where_ in
  let where_ :=
    if truthy (Filters.search filters)
    then Where.mk (Where.category where_) (Where.status where_)
           (Some (Filters.search filters)) (Where.id_gt where_)
    else where_ in
  where_.

Section PostHandler.
Context `{DataSource}.

(** [newId] is the key the store gives the new row. *)
Definition POST (newId : string) (body : Body) : M (string * Z) :=
  let filters :=
    {| Filters.category := default EmptyString (category body);
       Filters.status := default EmptyString (status body);
       Filters.search := default EmptyString (search body) |} in
  let where_ := where_of filters in
  totalRows ← prisma_product_count where_;
  job ← prisma_exportJob_create
          {| ExportJob.id := newId;
             ExportJob.filters := filters;
             ExportJob.status := "PENDING";
             ExportJob.totalRows := totalRows;
             ExportJob.lastCursor := 0;
             ExportJob.rowsExported := 0 |};
  mret (ExportJob.id job, totalRows).
End PostHandler.

End exportRoute.

(** ** The status handler *)

Module statusRoute.

Inductive Response : Type :=
| NotFound404 (error : string)
| Json200 (jobId status : string) (rowsExported totalRows lastCursor : Z).

Section StatusHandler.
Context `{DataSource}.

Definition GET (jobId : string) : M Response :=
  job ← prisma_exportJob_findUnique jobId;
  match job with
  | None => mret (NotFound404 "Job not found")
  | Some job =>
      mret (Json200 (ExportJob.id job) (ExportJob.status job)
              (ExportJob.rowsExported job) (ExportJob.totalRows job)
              (ExportJob.lastCursor job))
  end.
End StatusHandler.

End statusRoute.

(** ** The streaming handler *)

Module streamRoute.

Definition CHUNK_SIZE : nat := 1000.
Definition CHUNK_DELAY_MS : Z := 50.

Definition send (data : string) : M unit := emit (Send data).
Definition sendEvent (event : string) (data : Payload) : M unit :=
  emit (SendEvent event data).
Definition controller_close : M unit := emit Close.

(** [products.map(rowToCsvLine).join(EmptyString)]: the first row that
    cannot be encoded throws. *)
Fixpoint encode (products : list csvUtils.ProductRow) : Res string :=
  match products with
  | [] => Ok EmptyString
  | p :: ps =>
      match csvUtils.rowToCsvLine p with
      | Throw e => Throw e
      | Ok line =>
          match encode ps with
          | Throw e => Throw e
          | Ok rest => Ok (line ++ rest)%string
          end
      end
  end.

Definition where_of (filters : Filters.t) : Where.t :=
  let where_ := Where.empty in
  let where_ :=
    if exportRoute.truthy (Filters.category filters)
    then Where.mk (Some (Filters.category filters)) (Where.status where_)
           (Where.name_contains where_) (Where.id_gt where_)
    else where_ in
  let where_ :=
    if exportRoute.truthy (Filters.status filters)
    then Where.mk (Where.category where_) (Some (Filters.status filters))
           (Where.name_contains where_) (Where.id_gt where_)
    else where_ in
  let where_ :=
    if exportRoute.truthy (Filters.search filters)
    then Where.mk (Where.category where_) (Where.status where_)
           (Some (Filters.search filters)) (Where.id_gt where_)
    else where_ in
  where_.

Section StreamHandler.
Context `{DataSource}.

(** One turn of [while (true)]: [None] is the [break]; otherwise the
    new values of [cursor] and [rowsExported]. *)
Definition iteration (jobId : string) (job : ExportJob.t) (where_ : Where.t)
    (cursor rowsExported : Z) : M (option (Z * Z)) :=
  products ← prisma_product_findMany
               {| where_ := Where.with_id_gt where_ cursor;
                  orderBy_id := asc;
                  take_ := CHUNK_SIZE |};
  if (length products =? 0)%nat then mret None
  else
    csvChunk ← lift (encode products);
    send csvChunk;;
    cursor ← match last products with
             | Some p => mret (csvUtils.id p)
             | None => throw "TypeError: Cannot read properties of undefined"
             end;
    let rowsExported := rowsExported + Z.of_nat (length products) in
    prisma_exportJob_update jobId
      {| ExportJob.set_lastCursor := Some cursor;
         ExportJob.set_rowsExported := Some rowsExported;
         ExportJob.set_status := Some "PROCESSING" |};;
    sendEvent "progress" (ProgressData rowsExported (ExportJob.totalRows job));;
    emit (Delay CHUNK_DELAY_MS);;
    mret (Some (cursor, rowsExported)).

(** The loop, cut short before turn [turns + 1]; it returns the value
    of [rowsExported] at the [break]. *)
Fixpoint loop (turns : nat) (jobId : string) (job : ExportJob.t) (where_ : Where.t)
    (cursor rowsExported : Z) : M Z :=
  match turns with
  | O => stop
  | S turns' =>
      next ← iteration jobId job where_ cursor rowsExported;
      match next with
      | None => mret rowsExported
      | Some (cursor', rowsExported') =>
          loop turns' jobId job where_ cursor' rowsExported'
      end
  end.

(** The body of [start(controller)], with at most [turns] turns of the
    loop. *)
Definition start (turns : nat) (jobId : string) : M unit :=
  try_finally
    (try_catch
       (job ← prisma_exportJob_findUnique jobId;
        match job with
        | None =>
            sendEvent "error" (ErrorData "Job not found");;
            controller_close
        | Some job =>
            prisma_exportJob_update jobId
              {| ExportJob.set_status := Some "PROCESSING";
                 ExportJob.set_lastCursor := None;
                 ExportJob.set_rowsExported := None |};;
            let filters := ExportJob.filters job in
            let where_ := where_of filters in
            let cursor := ExportJob.lastCursor job in
            let rowsExported := ExportJob.rowsExported job in
            send csvUtils.CSV_HEADER;;
            rowsExported ← loop turns jobId job where_ cursor rowsExported;
            prisma_exportJob_update jobId
              {| ExportJob.set_status := Some "DONE";
                 ExportJob.set_lastCursor := None;
                 ExportJob.set_rowsExported := None |};;
            sendEvent "done" (DoneData rowsExported)
        end)
       (λ err,
          swallow (prisma_exportJob_update jobId
                     {| ExportJob.set_status := Some "FAILED";
                        ExportJob.set_lastCursor := None;
                        ExportJob.set_rowsExported := None |});;
          sendEvent "error" (ErrorData err)))
    controller_close.

(** Turns that are always enough: every turn but the last moves the
    cursor past at least one row of the table. *)
Definition enough (w : World) : nat := S (length (product w)).

(** [GET]: the stream runs [start] to its end. *)
Definition GET (jobId : string) : M unit := λ w, start (enough w) jobId w.
End StreamHandler.

End streamRoute.

(** ** The encoding rule and the fields of a row, for the statements below *)

Module Csv.

(** The characters that force a field into quotes. *)
Definition special (c : ascii) : bool :=
  Ascii.eqb c comma || Ascii.eqb c dquote || Ascii.eqb c LF.

Fixpoint has_special (s : string) : bool :=
  match s with
  | EmptyString => false
  | String c s' => special c || has_special s'
  end.

(** Every double quote written twice. *)
Fixpoint doubled (s : string) : string :=
  match s with
  | EmptyString => EmptyString
  | String c s' =>
      if Ascii.eqb c dquote then String dquote (String dquote (doubled s'))
      else String c (doubled s')
  end.

(** A field as RFC 4180 writes it. *)
Definition rfc4180_field (val : string) : string :=
  if has_special val then (str1 dquote ++ doubled val ++ str1 dquote)%string
  else val.

(** The seven values of a row, as text, before any quoting. *)
Definition fields (r : csvUtils.ProductRow) (iso : string) : list string :=
  [ Js.Int_toString (csvUtils.id r);
    csvUtils.name r;
    csvUtils.category r;
    Js.toFixed2 (csvUtils.price r);
    Js.Int_toString (csvUtils.quantity r);
    csvUtils.status r;
    iso ].

Definition header_fields : list string :=
  [ "id"; "name"; "category"; "price"; "quantity"; "status"; "createdAt" ].

(** The values of a row, when its date can be printed. *)
Definition values (r : csvUtils.ProductRow) : option (list string) :=
  match Js.toISOString (csvUtils.createdAt r) with
  | Ok iso => Some (fields r iso)
  | Throw _ => None
  end.

End Csv.

(** The strict order of the keys. *)
Definition id_lt (p q : csvUtils.ProductRow) : Prop := csvUtils.id p < csvUtils.id q.

(** ** The arguments the streaming handler passes to the client *)

(** The query of a chunk fetch. *)
Definition chunk_query (where_ : Where.t) (cursor : Z) : FindManyArgs :=
  {| where_ := Where.with_id_gt where_ cursor;
     orderBy_id := asc;
     take_ := streamRoute.CHUNK_SIZE |}.

(** The update after a chunk, and the updates of the status alone. *)
Definition progress_write (cursor rowsExported : Z) : ExportJob.data :=
  {| ExportJob.set_lastCursor := Some cursor;
     ExportJob.set_rowsExported := Some rowsExported;
     ExportJob.set_status := Some "PROCESSING" |}.

Definition status_write (s : string) : ExportJob.data :=
  {| ExportJob.set_status := Some s;
     ExportJob.set_lastCursor := None;
     ExportJob.set_rowsExported := None |}.

(** ** Reading a trace *)

Module Observe.

(** The chunk fetches, in order, each with the rows it returned. *)
Definition fetches (tr : list Effect) : list (FindManyArgs * list csvUtils.ProductRow) :=
  omap (λ e, match e with
             | ProductFindMany args rows => Some (args, rows)
             | _ => None
             end) tr.

Definition fetch_sizes (tr : list Effect) : list nat :=
  (λ f, length (snd f)) <$> fetches tr.

(** The successive states of the row of job [jobId], one for each
    completed [update] of that row, starting from [job]. *)
Fixpoint history (jobId : string) (job : ExportJob.t) (tr : list Effect) : list ExportJob.t :=
  match tr with
  | [] => []
  | JobUpdate j d :: tr' =>
      if decide (j = jobId)
      then ExportJob.apply d job :: history jobId (ExportJob.apply d job) tr'
      else history jobId job tr'
  | _ :: tr' => history jobId job tr'
  end.

(** The updates that carry a cursor: the persisted cursor advances. *)
Definition advances (tr : list Effect) : list (Z * Z) :=
  omap (λ e, match e with
             | JobUpdate _ d =>
                 c ← ExportJob.set_lastCursor d;
                 r ← ExportJob.set_rowsExported d;
                 Some (c, r)
             | _ => None
             end) tr.

(** The unnamed messages ([send]) and the named events ([sendEvent]). *)
Definition messages (tr : list Effect) : list string :=
  omap (λ e, match e with Send data => Some data | _ => None end) tr.

Definition events (tr : list Effect) : list (string * Payload) :=
  omap (λ e, match e with SendEvent ev data => Some (ev, data) | _ => None end) tr.

(** Along the states of a job, [lastCursor] and [rowsExported] never
    go down. *)
Fixpoint forward (job : ExportJob.t) (later : list ExportJob.t) : Prop :=
  match later with
  | [] => True
  | job' :: later' =>
      ExportJob.lastCursor job ≤ ExportJob.lastCursor job'
      ∧ ExportJob.rowsExported job ≤ ExportJob.rowsExported job'
      ∧ forward job' later'
  end.

(** The job row after the updates of a trace. *)
Fixpoint replay (jobId : string) (job : ExportJob.t) (tr : list Effect) : ExportJob.t :=
  match tr with
  | [] => job
  | JobUpdate j d :: tr' =>
      if decide (j = jobId) then replay jobId (ExportJob.apply d job) tr'
      else replay jobId job tr'
  | _ :: tr' => replay jobId job tr'
  end.

(** What a chunk fetch at [cursor] may return: rows beyond the cursor,
    in ascending order of [id], at most [CHUNK_SIZE] of them. *)
Definition chunk_ok (cursor : Z) (rows : list csvUtils.ProductRow) : Prop :=
  Forall (λ p, cursor < csvUtils.id p) rows
  ∧ StronglySorted id_le rows
  ∧ (length rows ≤ streamRoute.CHUNK_SIZE)%nat.

(** Every fetch of the trace asks for the rows beyond the cursor the
    job row holds at that moment: [cursor] at first, then the
    [lastCursor] of the latest update of job [jobId]. *)
Fixpoint follows_cursor (jobId : string) (where_ : Where.t) (cursor : Z)
    (tr : list Effect) : Prop :=
  match tr with
  | [] => True
  | ProductFindMany args rows :: tr' =>
      args = chunk_query where_ cursor
      ∧ chunk_ok cursor rows
      ∧ follows_cursor jobId where_ cursor tr'
  | JobUpdate j d :: tr' =>
      follows_cursor jobId where_
        (if decide (j = jobId) then default cursor (ExportJob.set_lastCursor d)
         else cursor) tr'
  | _ :: tr' => follows_cursor jobId where_ cursor tr'
  end.

(** The sizes of the fetches of a run that finds [n] rows ahead: full
    chunks, the rest, and the empty fetch that ends the loop. *)
Fixpoint chunk_sizes (fuel n : nat) : list nat :=
  match fuel with
  | O => []
  | S fuel' =>
      if (n =? 0)%nat then [0%nat]
      else (streamRoute.CHUNK_SIZE `min` n)%nat
           :: chunk_sizes fuel' (n - streamRoute.CHUNK_SIZE `min` n)
  end.

Definition fetch_plan (n : nat) : list nat := chunk_sizes (S n) n.

(** The rows the fetches returned, one chunk after the other. *)
Definition fetched_rows (tr : list Effect) : list csvUtils.ProductRow :=
  concat (snd <$> fetches tr).

(** The [progress] events, as pairs of [rowsExported] and [totalRows]. *)
Definition progress_events (tr : list Effect) : list (Z * Z) :=
  omap (λ e, match e with
             | SendEvent "progress" (ProgressData r t) => Some (r, t)
             | _ => None
             end) tr.

(** What a handler added to the trace. *)
Definition since (w w' : World) : list Effect :=
  drop (length (trace w)) (trace w').

(** All the text of the unnamed messages, in order. *)
Definition text (parts : list string) : string :=
  foldr String.append EmptyString parts.

End Observe.

(** ** The loop, turn by turn *)

Module LoopSpec.

(** How the loop ends: on the empty fetch, on an exception, or cut
    short. *)
Inductive End : Type :=
| Break
| Fails (err : string)
| Cut.

Section Spec.
Context `{DataSource}.
Variables (table : list csvUtils.ProductRow) (jobId : string) (total : Z)
  (where_ : Where.t).

(** [run turns cursor rows tr e cursor' rows']: from [cursor] and
    [rows], at most [turns] turns perform the operations [tr] and end
    as [e] with [cursor'] and [rows']. *)
Inductive run : nat → Z → Z → list Effect → End → Z → Z → Prop :=
| run_cut c r :
    run 0 c r [] Cut c r
| run_break n c r :
    findMany (chunk_query where_ c) table = [] →
    run (S n) c r [ProductFindMany (chunk_query where_ c) []] Break c r
| run_fails n c r rows err :
    findMany (chunk_query where_ c) table = rows →
    rows ≠ [] →
    streamRoute.encode rows = Throw err →
    run (S n) c r [ProductFindMany (chunk_query where_ c) rows] (Fails err) c r
| run_chunk n c r rows csv p tr e c' r' :
    findMany (chunk_query where_ c) table = rows →
    streamRoute.encode rows = Ok csv →
    last rows = Some p →
    run n (csvUtils.id p) (r + Z.of_nat (length rows)) tr e c' r' →
    run (S n) c r
      (ProductFindMany (chunk_query where_ c) rows
       :: Send csv
       :: JobUpdate jobId
            (progress_write (csvUtils.id p) (r + Z.of_nat (length rows)))
       :: SendEvent "progress"
            (ProgressData (r + Z.of_nat (length rows)) total)
       :: Delay streamRoute.CHUNK_DELAY_MS
       :: tr)
      e c' r'.

(** Rows still ahead of the cursor. *)
Definition ahead (cursor : Z) : nat :=
  length (filter (matches (Where.with_id_gt where_ cursor)) table).

(** The same rows in the order of the scan; a chunk is cut from its
    front. *)
Definition scan (cursor : Z) : list csvUtils.ProductRow :=
  merge_sort id_le (filter (matches (Where.with_id_gt where_ cursor)) table).
End Spec.

(** The outcome of [loop] for each end. *)
Definition outcome (e : End) (rowsExported : Z) : Outcome Z :=
  match e with
  | Break => Returned rowsExported
  | Fails err => Thrown err
  | Cut => Stopped
  end.

(** The row of the job while the loop runs. *)
Definition in_progress (job : ExportJob.t) (cursor rowsExported : Z) : ExportJob.t :=
  ExportJob.mk (ExportJob.id job) (ExportJob.filters job) "PROCESSING"
    cursor rowsExported (ExportJob.totalRows job).

(** What [start] leaves behind for each end of the loop. *)
Definition final_status (e : End) : string :=
  match e with
  | Break => "DONE"
  | Fails _ => "FAILED"
  | Cut => "PROCESSING"
  end.

Definition final_job (job : ExportJob.t) (e : End) (cursor rowsExported : Z) : ExportJob.t :=
  ExportJob.mk (ExportJob.id job) (ExportJob.filters job) (final_status e)
    cursor rowsExported (ExportJob.totalRows job).

Definition epilogue (jobId : string) (e : End) (rowsExported : Z) : list Effect :=
  match e with
  | Break =>
      [ JobUpdate jobId (status_write "DONE");
        SendEvent "done" (DoneData rowsExported);
        Close ]
  | Fails err =>
      [ JobUpdate jobId (status_write "FAILED");
        SendEvent "error" (ErrorData err);
        Close ]
  | Cut => []
  end.

Definition start_outcome (e : End) : Outcome unit :=
  match e with
  | Cut => Stopped
  | _ => Returned tt
  end.

Definition prologue (jobId : string) (job : ExportJob.t) : list Effect :=
  [ JobFindUnique jobId (Some job);
    JobUpdate jobId (status_write "PROCESSING");
    Send csvUtils.CSV_HEADER ].

End LoopSpec.

(** ** Rows that can be encoded *)

(** [rowToCsvLine] throws only on a row whose date is invalid. *)
Definition encodable (p : csvUtils.ProductRow) : Prop :=
  csvUtils.createdAt p ≠ Js.Invalid_Date.

(** A request field that is absent or the empty string. *)
Definition blank (field : option string) : Prop :=
  field = None ∨ field = Some EmptyString.

(** ** The page: the listeners of the event source

    The part of [startExport] of [src/app/page.tsx] that runs once the
    [EventSource] is open.  [setExportState] with a function applies it to
    the latest state; the listeners of one event run one after the other,
    in the order they were registered; after [es.close()] no further
    event is delivered.  A [Blob] of strings holds their concatenation. *)

Module page.

(** The [csvParts] field of the [streaming] state: the array literal it
    was created with, or the array [csvParts] the listeners fill. *)
Inductive PartsRef : Type :=
| Literal (parts : list string)
| Shared.

Inductive ExportState : Type :=
| idle
| creating
| streaming (jobId : string) (rowsExported totalRows : Z) (csvParts : PartsRef)
| done (rowsExported : Z)
| failed (jobId : string) (rowsExported totalRows : Z)
| resuming.

Record Client : Type := mkClient {
  exportState : ExportState;
  csvParts : list string;              (* [const csvParts: string[]] *)
  closed : bool;                       (* [es.close()] was called *)
  downloads : list (string * string);  (* file name and content *)
}.

(** [es.onmessage] *)
Definition onmessage (chunk : string) (cl : Client) : Client :=
  mkClient (exportState cl) (csvParts cl ++ [chunk]) (closed cl) (downloads cl).

(** The listener of [progress]. *)
Definition on_progress (rowsExported totalRows : Z) (cl : Client) : Client :=
  mkClient
    (match exportState cl with
     | streaming jobId _ _ _ => streaming jobId rowsExported totalRows Shared
     | prev => prev
     end)
    (csvParts cl) (closed cl) (downloads cl).

(** The listener of [done]: close, download the blob, show [done]. *)
Definition on_done (jobId : string) (rowsExported : Z) (cl : Client) : Client :=
  mkClient (done rowsExported) (csvParts cl) true
    (downloads cl
     ++ [(("export-" ++ jobId ++ ".csv")%string, Observe.text (csvParts cl))]).

(** The listener of [error], and [es.onerror], which has the same
    body. *)
Definition on_error (cl : Client) : Client :=
  mkClient
    (match exportState cl with
     | streaming jobId rowsExported totalRows _ => failed jobId rowsExported totalRows
     | _ => idle
     end)
    (csvParts cl) true (downloads cl).

Definition onerror (cl : Client) : Client := on_error cl.

(** An [error] event reaches the listener added for it and then
    [es.onerror], set after it. *)
Definition error_event (cl : Client) : Client := onerror (on_error cl).

(** What one operation of the server means for the page.  The server
    sends [progress] with a progress payload and [done] with a done
    payload; an event of another name has no listener.  When the server
    closes a connection the page has not closed, the event source
    reports an error. *)
Definition deliver (jobId : string) (e : Effect) (cl : Client) : Client :=
  if closed cl then cl
  else
    match e with
    | Send data => onmessage data cl
    | SendEvent "progress" (ProgressData r t) => on_progress r t cl
    | SendEvent "done" (DoneData r) => on_done jobId r cl
    | SendEvent "error" _ => error_event cl
    | Close => error_event cl
    | _ => cl
    end.

Definition receive (jobId : string) (tr : list Effect) (cl : Client) : Client :=
  foldl (λ cl e, deliver jobId e cl) cl tr.

(** The state after the [progress] events of the given advances. *)
Definition progressed (totalRows : Z) (st : ExportState) (advances : list (Z * Z))
    : ExportState :=
  foldl (λ st a,
           match st with
           | streaming jobId _ _ _ => streaming jobId (snd a) totalRows Shared
           | prev => prev
           end) st advances.

(** The page when the stream of a new export opens. *)
Definition opened (jobId : string) (totalRows : Z) : Client :=
  mkClient (streaming jobId 0 totalRows (Literal [])) [] false [].

End page.

(** ** The seeding script ([main] of [prisma/seed.ts])

    [Math.random] is outside the model: the price and the quantity drawn
    for row [idx] are given by two functions.  [Math.ceil(a / b)] is taken
    on integers. *)

Module seed.

Definition CATEGORIES : list string :=
  [ "Electronics"; "Clothing"; "Food"; "Books"; "Toys"; "Sports"; "Home";
    "Garden"; "Automotive"; "Health" ].
Definition STATUSES : list string := [ "active"; "inactive"; "discontinued" ].
Definition NAMES_PREFIX : list string :=
  [ "Ultra"; "Mega"; "Super"; "Pro"; "Elite"; "Smart"; "Eco"; "Nano"; "Turbo";
    "Alpha" ].
Definition NAMES_SUFFIX : list string :=
  [ "Widget"; "Gadget"; "Device"; "Tool"; "Gear"; "Kit"; "System"; "Unit";
    "Pack"; "Set" ].

Definition TOTAL : Z := 100000.
Definition BATCH_SIZE : Z := 500.

(** One element of [data]. *)
Record Data : Type := {
  name : string;
  category : string;
  price : spec_float;
  quantity : Z;
  status : string;
}.

(** [list[i]], printed: a missing element prints as [undefined]. *)
Definition at_ (list : list string) (i : Z) : string :=
  if i <? 0 then "undefined" else default "undefined" (list !! Z.to_nat i).

Definition len (list : list string) : Z := Z.of_nat (length list).

(** [Math.ceil(a / b)] *)
Definition ceil_div (a b : Z) : Z := - ((- a) / b).

Section Draws.
Variables (price_at : Z → spec_float) (quantity_at : Z → Z).

Definition item (idx : Z) : Data :=
  {| name := (at_ NAMES_PREFIX (Z.rem idx (len NAMES_PREFIX)) ++ " "
              ++ at_ NAMES_SUFFIX (Z.rem (idx + 3) (len NAMES_SUFFIX)) ++ " "
              ++ Js.Int_toString (idx + 1))%string;
     category := at_ CATEGORIES (Z.rem idx (len CATEGORIES));
     price := price_at idx;
     quantity := quantity_at idx;
     status := at_ STATUSES (Z.rem idx (len STATUSES)) |}.

(** The [data] of batch [b]. *)
Definition batch (total size b : Z) : list Data :=
  let offset := b * size in
  let count := Z.min size (total - offset) in
  item <$> seqZ offset count.

(** The [createMany] calls of a run, in order. *)
Definition batches (total size : Z) : list (list Data) :=
  batch total size <$> seqZ 0 (ceil_div total size).

Definition main : list (list Data) := batches TOTAL BATCH_SIZE.
End Draws.

End seed.

(** ** Concrete data for the examples *)

Module Sample.

(** A data source whose [contains] is the plain substring test. *)
Definition substring : DataSource := Js.includes.

(** The name the round-trip example uses. *)
Definition ultra : string :=
  ("Ultra, " ++ str1 dquote ++ "Pro" ++ str1 dquote ++ " Widget")%string.

Definition ultra_quoted : string :=
  (str1 dquote ++ "Ultra, " ++ str1 dquote ++ str1 dquote ++ "Pro"
   ++ str1 dquote ++ str1 dquote ++ " Widget" ++ str1 dquote)%string.

(** 19.99 and 5.5 as doubles. *)
Definition price_19_99 : spec_float := S754_finite false 5626899982090076 (-48).
Definition price_5_50 : spec_float := S754_finite false 11 (-1).

Definition ultra_row : csvUtils.ProductRow :=
  {| csvUtils.id := 7;
     csvUtils.name := ultra;
     csvUtils.category := "Toys";
     csvUtils.price := price_19_99;
     csvUtils.quantity := 5;
     csvUtils.status := "active";
     csvUtils.createdAt := Js.Time 1709210096789 |}.

Definition plain_row : csvUtils.ProductRow :=
  {| csvUtils.id := 8;
     csvUtils.name := "Mega Gadget 8";
     csvUtils.category := "Books";
     csvUtils.price := price_5_50;
     csvUtils.quantity := 0;
     csvUtils.status := "inactive";
     csvUtils.createdAt := Js.Time 0 |}.

Definition ultra_line : string :=
  ("7," ++ ultra_quoted ++ ",Toys,19.99,5,active,2024-02-29T12:34:56.789Z"
   ++ str1 LF)%string.

Definition plain_line : string :=
  ("8,Mega Gadget 8,Books,5.50,0,inactive,1970-01-01T00:00:00.000Z" ++ str1 LF)%string.

(** Row number [i] of a seeded table. *)
Definition row (i : Z) : csvUtils.ProductRow :=
  {| csvUtils.id := i;
     csvUtils.name := ("Widget " ++ Js.digits i)%string;
     csvUtils.category := "Toys";
     csvUtils.price := price_19_99;
     csvUtils.quantity := i mod 1000;
     csvUtils.status := "active";
     csvUtils.createdAt := Js.Time (1700000000000 + i) |}.

Definition rows (n : nat) : list csvUtils.ProductRow := row <$> seqZ 1 (Z.of_nat n).

Definition no_filters : Filters.t := Filters.mk EmptyString EmptyString EmptyString.
Definition books_only : Filters.t := Filters.mk "Books" EmptyString EmptyString.

Definition job (filters : Filters.t) (status : string) (cursor exported total : Z) : ExportJob.t :=
  ExportJob.mk "job1" filters status cursor exported total.

Definition world (table : list csvUtils.ProductRow) (j : ExportJob.t) : World :=
  mkWorld table {[ "job1" := j ]} [].

(** A fresh job over 2,500 rows, and over 1,200 rows. *)
Definition fresh_job (n : Z) : ExportJob.t := job no_filters "PENDING" 0 0 n.
Definition big_world : World := world (rows 2500) (fresh_job 2500).
Definition mid_world : World := world (rows 1200) (fresh_job 1200).

(** A job that failed after two of five rows. *)
Definition resumed_job : ExportJob.t := job no_filters "FAILED" 2 2 5.
Definition resumed_world : World := world (rows 5) resumed_job.

(** A finished job. *)
Definition done_job : ExportJob.t := job no_filters "DONE" 3 3 3.
Definition done_world : World := world (rows 3) done_job.

(** A job whose filter matches none of the rows. *)
Definition books_job : ExportJob.t := job books_only "PENDING" 0 0 0.
Definition books_world : World := world (rows 3) books_job.

(** A job stored with cursor 2000. *)
Definition far_job : ExportJob.t := job no_filters "PROCESSING" 2000 2000 2500.

(** A table whose second row carries a date that cannot be written. *)
Definition broken_row : csvUtils.ProductRow :=
  {| csvUtils.id := 2;
     csvUtils.name := "Widget 2";
     csvUtils.category := "Toys";
     csvUtils.price := price_5_50;
     csvUtils.quantity := 1;
     csvUtils.status := "active";
     csvUtils.createdAt := Js.Invalid_Date |}.
Definition broken_world : World := world [row 1; broken_row; row 3] (fresh_job 3).

(** A table with no job yet, and two request bodies. *)
Definition jobless_world : World := mkWorld (rows 3) ∅ [].

Definition toys_body : exportRoute.Body :=
  {| exportRoute.category := Some "Toys";
     exportRoute.status := None;
     exportRoute.search := Some EmptyString |}.

Definition empty_body : exportRoute.Body :=
  {| exportRoute.category := None;
     exportRoute.status := None;
     exportRoute.search := None |}.

(** The runs the examples look at. *)
Definition resumed_run : Outcome unit * World :=
  @streamRoute.start substring 3 "job1" resumed_world.
Definition done_run : Outcome unit * World :=
  @streamRoute.GET substring "job1" done_world.
Definition big_run : Outcome unit * World :=
  @streamRoute.GET substring "job1" big_world.
Definition first_pass : Outcome unit * World :=
  @streamRoute.start substring 1 "job1" mid_world.
Definition second_pass : Outcome unit * World :=
  @streamRoute.GET substring "job1" (snd first_pass).
Definition one_pass : Outcome unit * World :=
  @streamRoute.GET substring "job1" mid_world.
Definition creation : Outcome (string * Z) * World :=
  @exportRoute.POST substring "job2" toys_body jobless_world.

(** A fresh job over five rows, streamed to the end, and the stream over
    the table with the bad date. *)
Definition small_world : World := world (rows 5) (fresh_job 5).
Definition small_run : Outcome unit * World :=
  @streamRoute.GET substring "job1" small_world.
Definition broken_run : Outcome unit * World :=
  @streamRoute.GET substring "job1" broken_world.
Definition created_run : Outcome unit * World :=
  @streamRoute.GET substring "job2" (snd creation).

(** Draws that always come out the same. *)
Definition fixed_price (_ : Z) : spec_float := price_5_50.
Definition fixed_quantity (_ : Z) : Z := 42.

End Sample.

#[global] Instance Date_eq_dec : EqDecision Js.Date.
Proof. solve_decision. Defined.

#[global] Instance encodable_dec (p : csvUtils.ProductRow) : Decision (encodable p) :=
  not_dec (decide (csvUtils.createdAt p = Js.Invalid_Date)).


(** * Proofs *)

#[local] Arguments String.append !s1 s2 : simpl nomatch.

(** * Facts about the CSV encoder *)

Section CsvFacts.
Import Csv.

Lemma append_assoc (a b c : string) : (a ++ b) ++ c = a ++ (b ++ c).
Proof. induction a as [|x a IH]; simpl; [reflexivity | now rewrite IH]. Qed.

Lemma append_empty_r (a : string) : a ++ EmptyString = a.
Proof. induction a as [|x a IH]; simpl; [reflexivity | now rewrite IH]. Qed.

Lemma has_special_app (a b : string) :
  has_special (a ++ b) = has_special a || has_special b.
Proof.
  induction a as [|x a IH]; simpl; [reflexivity |].
  now rewrite IH, orb_assoc.
Qed.

(** *** The code's tests and replacement, character by character *)

Lemma includes_str1 (c : ascii) (s : string) :
  Js.includes s (str1 c)
  = match s with
    | EmptyString => false
    | String a s' => Ascii.eqb a c || Js.includes s' (str1 c)
    end.
Proof.
  destruct s as [|a s']; [reflexivity |].
  unfold str1. simpl. destruct (ascii_dec c a) as [->|Hne].
  - rewrite Ascii.eqb_refl. now destruct s'.
  - destruct (Ascii.eqb_spec a c); [congruence | reflexivity].
Qed.

Lemma includes_special (val : string) :
  Js.includes val (str1 comma) || Js.includes val (str1 dquote)
  || Js.includes val (str1 LF) = has_special val.
Proof.
  induction val as [|a s IH]; [reflexivity |].
  rewrite !(includes_str1 _ (String a s)). simpl. rewrite <- IH. unfold special.
  destruct (Ascii.eqb a comma), (Ascii.eqb a dquote), (Ascii.eqb a LF),
    (Js.includes s (str1 comma)), (Js.includes s (str1 dquote)),
    (Js.includes s (str1 LF)); reflexivity.
Qed.

Lemma replaceAll_doubled (val : string) :
  Js.replaceAll dquote (str1 dquote ++ str1 dquote) val = doubled val.
Proof.
  change (str1 dquote ++ str1 dquote) with (String dquote (String dquote EmptyString)).
  induction val as [|a s IH]; simpl; [reflexivity |].
  rewrite IH. now destruct (Ascii.eqb a dquote).
Qed.

Lemma escapeCsv_rfc4180 (val : string) :
  csvUtils.escapeCsv val = rfc4180_field val.
Proof.
  unfold csvUtils.escapeCsv, rfc4180_field.
  now rewrite includes_special, replaceAll_doubled.
Qed.

Lemma rfc4180_field_plain (val : string) :
  has_special val = false → rfc4180_field val = val.
Proof. unfold rfc4180_field. now intros ->. Qed.

(** *** Numbers and dates print without special characters *)

Lemma plain_uint (u : Decimal.uint) : has_special (NilEmpty.string_of_uint u) = false.
Proof. induction u; simpl; auto. Qed.

Lemma plain_digits (n : Z) : has_special (Js.digits n) = false.
Proof.
  unfold Js.digits, NilZero.string_of_uint.
  destruct (N.to_uint (Z.to_N n)) eqn:E; try reflexivity;
    rewrite <- E; apply plain_uint.
Qed.

Lemma plain_Int_toString (n : Z) : has_special (Js.Int_toString n) = false.
Proof.
  unfold Js.Int_toString, NilZero.string_of_int.
  destruct (Z.to_int n) as [u|u]; unfold NilZero.string_of_uint.
  - destruct u eqn:E; try reflexivity; rewrite <- E; apply plain_uint.
  - simpl. destruct u eqn:E; try reflexivity; rewrite <- E; apply plain_uint.
Qed.

Lemma plain_zeros (k : nat) :
  has_special (string_of_list_ascii (repeat "0"%char k)) = false.
Proof. induction k; simpl; auto. Qed.

Lemma plain_padStart0 (w : nat) (s : string) :
  has_special s = false → has_special (Js.padStart0 w s) = false.
Proof.
  intros Hs. unfold Js.padStart0. now rewrite has_special_app, plain_zeros, Hs.
Qed.

Lemma plain_pad (w : nat) (n : Z) : has_special (Js.pad w n) = false.
Proof. apply plain_padStart0, plain_digits. Qed.

Lemma plain_fixed2 (n : Z) : has_special (Js.fixed2 n) = false.
Proof.
  unfold Js.fixed2. rewrite !has_special_app, plain_digits.
  now rewrite plain_padStart0 by apply plain_digits.
Qed.

Lemma plain_exponentForm (s p : Z) : has_special (Js.exponentForm s p) = false.
Proof.
  unfold Js.exponentForm. pose proof (plain_digits s) as Hs.
  destruct (Js.digits s) as [|d rest]; [reflexivity |].
  simpl in Hs. apply orb_false_elim in Hs as [Hd Hrest].
  destruct rest as [|d' rest'].
  - unfold str1. simpl. rewrite Hd. simpl. apply plain_digits.
  - rewrite !has_special_app, Hrest, plain_digits. unfold str1. simpl.
    now rewrite Hd.
Qed.

Lemma plain_toFixed2 (x : spec_float) : has_special (Js.toFixed2 x) = false.
Proof.
  destruct x as [s|[|]| |s m e]; try reflexivity.
  unfold Js.toFixed2. rewrite has_special_app.
  replace (has_special (if s then "-" else EmptyString)) with false
    by now destruct s.
  simpl. destruct (Js.atLeast1e21 m e).
  - unfold Js.Number_toString_large.
    destruct (Js.roundingInterval m e) as [[lo2 hi2] closed].
    destruct (Js.shortest _ _ _ _ _) as [s' p]. apply plain_exponentForm.
  - apply plain_fixed2.
Qed.

Lemma plain_year_string (y : Z) : has_special (Js.year_string y) = false.
Proof.
  unfold Js.year_string. destruct (_ && _); [apply plain_pad |].
  rewrite has_special_app, plain_pad. now destruct (y <? 0).
Qed.

Lemma dropCR_app (a : string) (c : ascii) (b : string) :
  Rfc4180.dropCR (a ++ String c b) = a ++ Rfc4180.dropCR (String c b).
Proof.
  induction a as [|x a IH]; [reflexivity |].
  change (String x a ++ String c b) with (String x (a ++ String c b)).
  cbn [Rfc4180.dropCR]. rewrite IH.
  destruct (a ++ String c b) eqn:E; [now destruct a | reflexivity].
Qed.

Lemma dropCR_cons_app (x : ascii) (a : string) (c : ascii) (b : string) :
  Rfc4180.dropCR (String x (a ++ String c b))
  = String x (Rfc4180.dropCR (a ++ String c b)).
Proof.
  cbn [Rfc4180.dropCR].
  destruct (a ++ String c b) eqn:E; [now destruct a | reflexivity].
Qed.

Lemma toISOString_plain (d : Js.Date) (iso : string) :
  Js.toISOString d = Ok iso →
  has_special iso = false ∧ Rfc4180.dropCR iso = iso.
Proof.
  destruct d as [|t]; [discriminate |]. unfold Js.toISOString.
  destruct (Js.civil_from_days _) as [[y mo] dd]. intros [= <-]. split.
  - rewrite has_special_app, plain_year_string.
    repeat (cbn [has_special orb]; rewrite ?has_special_app, ?plain_pad).
    reflexivity.
  - cbn [String.append].
    repeat (rewrite dropCR_app || rewrite dropCR_cons_app). reflexivity.
Qed.

(** *** The reader on one field *)

Lemma parse_plain (f fld : string) rec recs (rest : string) :
  has_special f = false →
  Rfc4180.parse Rfc4180.Unquoted fld rec recs (f ++ rest)
  = Rfc4180.parse Rfc4180.Unquoted (fld ++ f) rec recs rest.
Proof.
  revert fld. induction f as [|c f IH]; intros fld Hf.
  - now rewrite append_empty_r.
  - simpl in Hf. apply orb_false_elim in Hf as [Hc Hf].
    unfold special in Hc. apply orb_false_elim in Hc as [Hc HLF].
    apply orb_false_elim in Hc as [Hcomma Hdq].
    simpl. rewrite Hcomma, HLF, Hdq. rewrite IH by assumption.
    now rewrite append_assoc.
Qed.

Lemma parse_quoted (f fld : string) rec recs (rest : string) :
  Rfc4180.parse Rfc4180.Quoted fld rec recs (doubled f ++ String dquote rest)
  = Rfc4180.parse Rfc4180.QuoteEnd (fld ++ f) rec recs rest.
Proof.
  revert fld. induction f as [|c f IH]; intros fld.
  - simpl. now rewrite append_empty_r.
  - simpl. destruct (Ascii.eqb_spec c dquote) as [->|Hne].
    + simpl. rewrite IH. now rewrite append_assoc.
    + simpl. destruct (Ascii.eqb_spec c dquote); [congruence |].
      rewrite IH. now rewrite append_assoc.
Qed.

(** A field and the comma after it. *)
Lemma parse_field_comma (f : string) rec recs (rest : string) :
  Rfc4180.parse Rfc4180.Unquoted EmptyString rec recs
    (rfc4180_field f ++ String comma rest)
  = Rfc4180.parse Rfc4180.Unquoted EmptyString (rec ++ [f])%list recs rest.
Proof.
  unfold rfc4180_field. destruct (has_special f) eqn:Hf.
  - unfold str1. simpl. rewrite append_assoc. simpl.
    rewrite parse_quoted. reflexivity.
  - rewrite parse_plain by assumption. reflexivity.
Qed.

(** The last field of a line and the line feed after it. *)
Lemma parse_field_LF (f : string) rec recs (rest : string) :
  has_special f = false → Rfc4180.dropCR f = f →
  Rfc4180.parse Rfc4180.Unquoted EmptyString rec recs (f ++ String LF rest)
  = Rfc4180.parse Rfc4180.Unquoted EmptyString [] (recs ++ [rec ++ [f]])%list rest.
Proof.
  intros Hf Hcr. rewrite parse_plain by assumption. simpl. now rewrite Hcr.
Qed.

(** A whole line, as [rowToCsvLine] lays it out. *)
Lemma parse_line (f1 f2 f3 f4 f5 f6 f7 : string) recs (rest : string) :
  has_special f7 = false → Rfc4180.dropCR f7 = f7 →
  Rfc4180.parse Rfc4180.Unquoted EmptyString [] recs
    ((Js.join "," (map rfc4180_field [f1; f2; f3; f4; f5; f6] ++ [f7])
      ++ str1 LF) ++ rest)
  = Rfc4180.parse Rfc4180.Unquoted EmptyString []
      (recs ++ [[f1; f2; f3; f4; f5; f6; f7]])%list rest.
Proof.
  intros H7 Hcr. cbn [map app Js.join].
  rewrite !append_assoc. cbn [String.append].
  change ","%char with comma.
  rewrite !parse_field_comma. unfold str1. cbn [String.append].
  now rewrite parse_field_LF.
Qed.

(** What [rowToCsvLine] returns. *)
Lemma rowToCsvLine_fields (r : csvUtils.ProductRow) (line : string) :
  csvUtils.rowToCsvLine r = Ok line →
  ∃ iso, Js.toISOString (csvUtils.createdAt r) = Ok iso
    ∧ has_special iso = false ∧ Rfc4180.dropCR iso = iso
    ∧ line = Js.join "," (map rfc4180_field (fields r iso)) ++ str1 LF.
Proof.
  unfold csvUtils.rowToCsvLine.
  destruct (Js.toISOString _) as [iso|e] eqn:E; [|discriminate].
  intros [= <-]. exists iso. destruct (toISOString_plain _ _ E) as [Hp Hcr].
  repeat split; try assumption. unfold fields. cbn [map].
  rewrite !(rfc4180_field_plain (Js.Int_toString _)) by apply plain_Int_toString.
  rewrite (rfc4180_field_plain (Js.toFixed2 _)) by apply plain_toFixed2.
  rewrite (rfc4180_field_plain iso) by assumption.
  now rewrite <- !escapeCsv_rfc4180.
Qed.

Lemma parse_row (r : csvUtils.ProductRow) (line : string) recs (rest : string) :
  csvUtils.rowToCsvLine r = Ok line →
  ∃ iso, Js.toISOString (csvUtils.createdAt r) = Ok iso
    ∧ Rfc4180.parse Rfc4180.Unquoted EmptyString [] recs (line ++ rest)
      = Rfc4180.parse Rfc4180.Unquoted EmptyString [] (recs ++ [fields r iso])%list rest.
Proof.
  intros Hline. destruct (rowToCsvLine_fields _ _ Hline) as (iso & Hiso & Hp & Hcr & ->).
  exists iso. split; [assumption |].
  unfold fields. cbn [map].
  rewrite (rfc4180_field_plain iso) by assumption.
  exact (parse_line _ _ _ _ _ _ iso recs rest Hp Hcr).
Qed.

Lemma parse_header recs (rest : string) :
  Rfc4180.parse Rfc4180.Unquoted EmptyString [] recs (csvUtils.CSV_HEADER ++ rest)
  = Rfc4180.parse Rfc4180.Unquoted EmptyString [] (recs ++ [header_fields])%list rest.
Proof. reflexivity. Qed.

End CsvFacts.


Local Open Scope list_scope.


(** * Facts about the queries *)

#[global] Instance id_le_transitive : Transitive id_le.
Proof. unfold id_le. intros p q s. lia. Qed.

#[global] Instance id_le_total : Total id_le.
Proof. unfold id_le. intros p q. lia. Qed.

Section PrismaFacts.
Context `{DataSource}.
Import LoopSpec.

Implicit Types (table rows : list csvUtils.ProductRow) (p q : csvUtils.ProductRow)
  (wh : Where.t) (c : Z).

Lemma Is_true_ltb (a b : Z) : Is_true (a <? b) ↔ a < b.
Proof. rewrite Is_true_true. apply Z.ltb_lt. Qed.

Lemma filter_none {A} (P : A → Prop) `{∀ x, Decision (P x)} (l : list A) :
  Forall (λ x, ¬ P x) l → filter P l = [].
Proof.
  induction 1 as [|x l Hx _ IH]; [reflexivity |].
  now rewrite filter_cons_False.
Qed.

Lemma filter_all {A} (P : A → Prop) `{∀ x, Decision (P x)} (l : list A) :
  Forall P l → filter P l = l.
Proof.
  induction 1 as [|x l Hx _ IH]; [reflexivity |].
  rewrite filter_cons_True by assumption. now rewrite IH.
Qed.

Lemma findMany_chunk table wh c :
  findMany (chunk_query wh c) table = take streamRoute.CHUNK_SIZE (scan table wh c).
Proof. reflexivity. Qed.

Lemma scan_Permutation table wh c :
  scan table wh c ≡ₚ filter (matches (Where.with_id_gt wh c)) table.
Proof. apply merge_sort_Permutation. Qed.

Lemma scan_length table wh c : length (scan table wh c) = ahead table wh c.
Proof. unfold ahead. now rewrite scan_Permutation. Qed.

Lemma scan_sorted table wh c : StronglySorted id_le (scan table wh c).
Proof. apply (StronglySorted_merge_sort id_le). Qed.

Lemma matches_bound wh c p :
  matches (Where.with_id_gt wh c) p → c < csvUtils.id p.
Proof.
  unfold matches. cbn [Where.with_id_gt Where.id_gt holds].
  rewrite !andb_True, Is_true_ltb. tauto.
Qed.

Lemma matches_rebound wh c c' p :
  matches (Where.with_id_gt wh c) p → c' < csvUtils.id p →
  matches (Where.with_id_gt wh c') p.
Proof.
  unfold matches. cbn [Where.with_id_gt Where.id_gt Where.category Where.status
                         Where.name_contains holds].
  rewrite !andb_True, !Is_true_ltb. tauto.
Qed.

Lemma matches_unbound wh c p :
  Where.id_gt wh = None →
  matches (Where.with_id_gt wh c) p ↔ matches wh p ∧ c < csvUtils.id p.
Proof.
  destruct wh as [cat st nm gt]. cbn [Where.id_gt]. intros ->. unfold matches.
  cbn [Where.with_id_gt Where.id_gt Where.category Where.status
         Where.name_contains holds].
  rewrite !andb_True, Is_true_ltb. cbn [Is_true]. tauto.
Qed.

Lemma scan_elem table wh c p :
  p ∈ scan table wh c ↔ matches (Where.with_id_gt wh c) p ∧ p ∈ table.
Proof. now rewrite scan_Permutation, list_elem_of_filter. Qed.

Lemma chunk_elem table wh c p :
  p ∈ findMany (chunk_query wh c) table →
  matches (Where.with_id_gt wh c) p ∧ p ∈ table.
Proof.
  rewrite findMany_chunk. intros Hp. apply scan_elem.
  rewrite <- (take_drop streamRoute.CHUNK_SIZE (scan table wh c)).
  apply elem_of_app. now left.
Qed.

Lemma chunk_above table wh c :
  Forall (λ p, c < csvUtils.id p) (findMany (chunk_query wh c) table).
Proof.
  apply Forall_forall. intros p Hp. apply (matches_bound wh).
  now apply (chunk_elem table).
Qed.

Lemma chunk_sorted table wh c :
  StronglySorted id_le (findMany (chunk_query wh c) table).
Proof.
  rewrite findMany_chunk.
  apply (StronglySorted_app_1_l id_le _ (drop streamRoute.CHUNK_SIZE (scan table wh c))).
  rewrite take_drop. apply scan_sorted.
Qed.

Lemma chunk_length table wh c :
  length (findMany (chunk_query wh c) table)
  = (streamRoute.CHUNK_SIZE `min` ahead table wh c)%nat.
Proof. now rewrite findMany_chunk, length_take, scan_length. Qed.

(** No row ahead: the fetch is empty; and the other way round. *)
Lemma chunk_nil table wh c :
  findMany (chunk_query wh c) table = [] ↔ ahead table wh c = 0%nat.
Proof.
  rewrite <- length_zero_iff_nil, chunk_length. unfold streamRoute.CHUNK_SIZE. lia.
Qed.

(** The cursor moves past the last row of the chunk: fewer rows are
    ahead. *)
Lemma ahead_decreases table wh c p :
  last (findMany (chunk_query wh c) table) = Some p →
  (ahead table wh (csvUtils.id p) < ahead table wh c)%nat.
Proof.
  intros Hlast. apply last_Some_elem_of, chunk_elem in Hlast as [Hm Hp].
  unfold ahead.
  rewrite <- (list_filter_filter_l
                (matches (Where.with_id_gt wh (csvUtils.id p)))
                (matches (Where.with_id_gt wh c))).
  - apply (length_filter_lt _ _ p).
    + now apply list_elem_of_filter.
    + intros Hbad. apply matches_bound in Hbad. lia.
  - intros x Hx. apply (matches_rebound wh (csvUtils.id p)); [exact Hx |].
    apply matches_bound in Hx, Hm. lia.
Qed.

(** With a primary key, the rows of the chunk are exactly the rows that
    leave the scan. *)
Lemma ahead_after_chunk table wh c p :
  NoDup (csvUtils.id <$> table) →
  last (findMany (chunk_query wh c) table) = Some p →
  ahead table wh (csvUtils.id p)
  = (ahead table wh c - length (findMany (chunk_query wh c) table))%nat.
Proof.
  intros Hkey Hlast. rewrite findMany_chunk in *.
  set (S := scan table wh c) in *. set (k := streamRoute.CHUNK_SIZE) in *.
  assert (HS : StronglySorted id_le (take k S ++ drop k S))
    by (rewrite take_drop; apply scan_sorted).
  assert (HkeyS : NoDup (csvUtils.id <$> (take k S ++ drop k S))).
  { rewrite take_drop. unfold S. rewrite scan_Permutation.
    eapply sublist_NoDup; [exact Hkey |]. apply fmap_sublist, sublist_filter. }
  assert (Hm : matches (Where.with_id_gt wh c) p).
  { apply (scan_elem table). rewrite <- (take_drop k (scan table wh c)).
    apply elem_of_app. left. now apply last_Some_elem_of. }
  (* rows ahead of the new cursor are the rows of the scan above [p] *)
  transitivity (length (filter (λ x, csvUtils.id p < csvUtils.id x) S)).
  { unfold ahead, S. rewrite scan_Permutation, list_filter_filter.
    f_equal. apply list_filter_iff. intros x. split.
    - intros Hx. split; [now apply matches_bound in Hx |].
      apply (matches_rebound wh (csvUtils.id p)); [exact Hx |].
      apply matches_bound in Hx, Hm. lia.
    - intros [Hlt Hx]. now apply (matches_rebound wh c). }
  rewrite <- (take_drop k S) at 1. rewrite filter_app.
  destruct (proj1 (last_Some _ _) Hlast) as [l1 Hl1].
  rewrite Hl1 in HS, HkeyS.
  rewrite (filter_none _ (take k S)), (filter_all _ (drop k S)).
  - cbn [app]. rewrite length_drop, length_take, <- scan_length. fold S. lia.
  - apply Forall_forall. intros x Hx.
    assert (Hle : id_le p x).
    { apply (StronglySorted_app_1_elem_of id_le _ _ p x HS); [|exact Hx].
      apply elem_of_app. right. now apply list_elem_of_singleton. }
    unfold id_le in Hle.
    assert (csvUtils.id p ≠ csvUtils.id x); [|lia].
    rewrite fmap_app in HkeyS. apply NoDup_app in HkeyS as (_ & Hdisj & _).
    intros Heq. apply (Hdisj (csvUtils.id p)).
    + apply list_elem_of_fmap. exists p. split; [reflexivity |].
      apply elem_of_app. right. now apply list_elem_of_singleton.
    + rewrite Heq. apply list_elem_of_fmap. now exists x.
  - rewrite Hl1. apply Forall_forall. intros x Hx.
    apply elem_of_app in Hx as [Hx | Hx].
    + apply StronglySorted_app_1_l in HS.
      assert (Hle : id_le x p).
      { apply (StronglySorted_app_1_elem_of id_le _ _ x p HS Hx).
        now apply list_elem_of_singleton. }
      unfold id_le in Hle. lia.
    + apply list_elem_of_singleton in Hx as ->. lia.
Qed.
End PrismaFacts.


(** * Facts about the streaming handler *)

Section StreamFacts.
Context `{DataSource}.
Import LoopSpec.

Implicit Types (w : World) (jobId : string) (job j : ExportJob.t)
  (tr : list Effect) (c r : Z) (e : End).

Lemma world_eta w : mkWorld (product w) (exportJob w) (trace w) = w.
Proof. now destruct w. Qed.

(** One turn of the loop, case by case. *)
Lemma iteration_eq jobId job wh c r w :
  streamRoute.iteration jobId job wh c r w
  = let rows := findMany (chunk_query wh c) (product w) in
    let fetched := ProductFindMany (chunk_query wh c) rows in
    match rows with
    | [] => (Returned None, mkWorld (product w) (exportJob w) (trace w ++ [fetched]))
    | _ =>
        match streamRoute.encode rows with
        | Throw err =>
            (Thrown err, mkWorld (product w) (exportJob w) (trace w ++ [fetched]))
        | Ok csv =>
            match last rows with
            | None =>
                (Thrown "TypeError: Cannot read properties of undefined",
                 mkWorld (product w) (exportJob w) (trace w ++ [fetched; Send csv]))
            | Some p =>
                let r' := r + Z.of_nat (length rows) in
                match exportJob_update jobId (progress_write (csvUtils.id p) r')
                        (exportJob w) with
                | Throw err =>
                    (Thrown err,
                     mkWorld (product w) (exportJob w) (trace w ++ [fetched; Send csv]))
                | Ok jobs =>
                    (Returned (Some (csvUtils.id p, r')),
                     mkWorld (product w) jobs
                       (trace w ++ [ fetched; Send csv;
                                     JobUpdate jobId (progress_write (csvUtils.id p) r');
                                     SendEvent "progress"
                                       (ProgressData r' (ExportJob.totalRows job));
                                     Delay streamRoute.CHUNK_DELAY_MS ]))
                end
            end
        end
    end.
Proof.
  unfold streamRoute.iteration, mbind, M_bind, prisma_product_findMany.
  cbn zeta. fold (chunk_query wh c).
  destruct (findMany (chunk_query wh c) (product w)) as [|p0 rows0] eqn:Hrows;
    [reflexivity |].
  cbn [length Nat.eqb]. unfold lift.
  destruct (streamRoute.encode (p0 :: rows0)) as [csv|err]; [|reflexivity].
  unfold mret, M_ret, streamRoute.send, streamRoute.sendEvent, emit, throw,
    prisma_exportJob_update.
  cbn [product exportJob trace].
  destruct (last (p0 :: rows0)) as [p|];
    [|now rewrite <- app_assoc].
  fold (progress_write (csvUtils.id p) (r + Z.of_nat (length (p0 :: rows0)))).
  destruct (exportJob_update _ _ _) as [jobs|err];
    cbn [product exportJob trace]; now rewrite <- ?app_assoc.
Qed.

Lemma update_present jobId d (jobs : gmap string ExportJob.t) j :
  jobs !! jobId = Some j →
  exportJob_update jobId d jobs = Ok (<[jobId := ExportJob.apply d j]> jobs).
Proof. unfold exportJob_update. now intros ->. Qed.

Lemma update_absent jobId d (jobs : gmap string ExportJob.t) :
  jobs !! jobId = None → ∃ err, exportJob_update jobId d jobs = Throw err.
Proof. unfold exportJob_update. intros ->. eauto. Qed.

(** The loop follows [run]; the row of the job carries the cursor and
    the count of the last completed turn. *)
Lemma loop_run turns jobId job wh j : ∀ c r w,
  exportJob w !! jobId = Some (in_progress j c r) →
  ∃ tr e c' r',
    run (product w) jobId (ExportJob.totalRows job) wh turns c r tr e c' r'
    ∧ streamRoute.loop turns jobId job wh c r w
      = (outcome e r',
         mkWorld (product w) (<[jobId := in_progress j c' r']> (exportJob w))
           (trace w ++ tr)).
Proof.
  induction turns as [|n IH]; intros c r w Hjob.
  - exists [], Cut, c, r. split; [constructor |].
    unfold streamRoute.loop, stop. cbn [outcome].
    now rewrite insert_id, app_nil_r, world_eta.
  - cbn [streamRoute.loop]. unfold mbind, M_bind. rewrite iteration_eq. cbn zeta.
    destruct (findMany (chunk_query wh c) (product w)) as [|p0 rows0] eqn:Hrows.
    { exists [ProductFindMany (chunk_query wh c) []], Break, c, r.
      split; [now constructor |]. cbn [outcome].
      now rewrite insert_id. }
    destruct (streamRoute.encode (p0 :: rows0)) as [csv|err] eqn:Henc.
    2:{ exists [ProductFindMany (chunk_query wh c) (p0 :: rows0)], (Fails err), c, r.
        split; [now apply run_fails |]. cbn [outcome]. now rewrite insert_id. }
    destruct (last (p0 :: rows0)) as [p|] eqn:Hlast.
    2:{ now apply last_None in Hlast. }
    rewrite (update_present _ _ _ _ Hjob).
    set (r1 := r + Z.of_nat (length (p0 :: rows0))).
    set (w1 := mkWorld _ _ _).
    destruct (IH (csvUtils.id p) r1 w1) as (tr & e & c' & r' & Hrun & Hloop).
    { subst w1. cbn [exportJob]. now rewrite lookup_insert_eq. }
    rewrite Hloop. subst w1. cbn [product exportJob trace].
    eexists _, e, c', r'. split.
    + eapply run_chunk; eauto.
    + now rewrite insert_insert_eq, <- app_assoc.
Qed.

(** The whole of [start] on an existing job. *)
Lemma start_run turns jobId w job :
  exportJob w !! jobId = Some job →
  ∃ tr e c' r',
    run (product w) jobId (ExportJob.totalRows job)
      (streamRoute.where_of (ExportJob.filters job)) turns
      (ExportJob.lastCursor job) (ExportJob.rowsExported job) tr e c' r'
    ∧ streamRoute.start turns jobId w
      = (start_outcome e,
         mkWorld (product w) (<[jobId := final_job job e c' r']> (exportJob w))
           (trace w ++ prologue jobId job ++ tr ++ epilogue jobId e r')).
Proof.
  intros Hjob.
  set (w1 := mkWorld (product w)
               (<[jobId := in_progress job (ExportJob.lastCursor job)
                             (ExportJob.rowsExported job)]> (exportJob w))
               (trace w ++ prologue jobId job)).
  destruct (loop_run turns jobId job (streamRoute.where_of (ExportJob.filters job))
              job (ExportJob.lastCursor job) (ExportJob.rowsExported job) w1)
    as (tr & e & c' & r' & Hrun & Hloop).
  { subst w1. cbn [exportJob]. now rewrite lookup_insert_eq. }
  exists tr, e, c', r'. split; [exact Hrun |].
  unfold streamRoute.start, try_finally, try_catch, mbind, M_bind,
    prisma_exportJob_findUnique.
  rewrite Hjob. unfold prisma_exportJob_update at 1. cbn [product exportJob trace].
  rewrite (update_present _ _ _ _ Hjob).
  unfold streamRoute.send, emit. cbn [product exportJob trace].
  rewrite <- !app_assoc. cbn [app].
  change (ExportJob.apply _ job)
    with (in_progress job (ExportJob.lastCursor job) (ExportJob.rowsExported job)).
  fold (status_write "PROCESSING"). fold (prologue jobId job). fold w1.
  rewrite Hloop. subst w1. cbn [product exportJob trace].
  destruct e as [|err|]; cbn [outcome start_outcome epilogue final_job final_status].
  - unfold prisma_exportJob_update, streamRoute.sendEvent,
      streamRoute.controller_close, emit.
    cbn [product exportJob trace].
    erewrite update_present by apply lookup_insert_eq.
    cbn [product exportJob trace].
    rewrite !insert_insert_eq, <- !app_assoc. reflexivity.
  - unfold swallow, try_catch, prisma_exportJob_update, streamRoute.sendEvent,
      streamRoute.controller_close, emit.
    cbn [product exportJob trace].
    erewrite update_present by apply lookup_insert_eq.
    cbn [product exportJob trace].
    rewrite !insert_insert_eq, <- !app_assoc. reflexivity.
  - rewrite !insert_insert_eq, app_nil_r, <- ?app_assoc. reflexivity.
Qed.

(** [start] on a job that does not exist. *)
Lemma start_missing turns jobId w :
  exportJob w !! jobId = None →
  streamRoute.start turns jobId w
  = (Returned tt,
     mkWorld (product w) (exportJob w)
       (trace w ++ [ JobFindUnique jobId None;
                     SendEvent "error" (ErrorData "Job not found");
                     Close; Close ])).
Proof.
  intros Hjob.
  unfold streamRoute.start, try_finally, try_catch, mbind, M_bind,
    prisma_exportJob_findUnique, streamRoute.sendEvent,
    streamRoute.controller_close, emit.
  rewrite Hjob. cbn [product exportJob trace].
  now rewrite <- !app_assoc.
Qed.
End StreamFacts.


(** * Facts about runs of the loop *)

Section RunFacts.
Context `{DataSource}.
Import LoopSpec Observe.
Variables (table : list csvUtils.ProductRow) (jobId : string) (total : Z)
  (wh : Where.t).

Implicit Types (tr tail : list Effect) (c r : Z) (e : End) (j : ExportJob.t).

Abbreviation run := (run table jobId total wh).
Abbreviation ahead := (ahead table wh).

Lemma fetch_sizes_chunk q rows csv (k : string) d ev pd ms tr :
  fetch_sizes (ProductFindMany q rows :: Send csv :: JobUpdate k d
               :: SendEvent ev pd :: Delay ms :: tr)
  = length rows :: fetch_sizes tr.
Proof. reflexivity. Qed.

Lemma advances_chunk q rows csv (k : string) c r ev pd ms tr :
  advances (ProductFindMany q rows :: Send csv :: JobUpdate k (progress_write c r)
            :: SendEvent ev pd :: Delay ms :: tr)
  = (c, r) :: advances tr.
Proof. reflexivity. Qed.

(** A fetch cannot be empty and have a last row. *)
Ltac empty_last :=
  exfalso;
  match goal with
  | Hnil : findMany ?q ?t = [], Hlast : last (findMany ?q ?t) = Some _ |- _ =>
      rewrite Hnil in Hlast; discriminate
  end.

(** With more turns than rows ahead, the loop is not cut short. *)
Lemma run_ends n c r tr e c' r' :
  run n c r tr e c' r' → (ahead c < n)%nat → e ≠ Cut.
Proof.
  induction 1 as [c r | n c r Hnil | n c r rows err Hrows Hne Henc
                 | n c r rows csv p tr e c' r' Hrows Henc Hlast Hrun IH];
    intros Hn; try discriminate; [lia |].
  apply IH. subst rows. apply ahead_decreases in Hlast. lia.
Qed.

(** Two runs from the same point that both reach their end agree. *)
Lemma run_deterministic n c r tr e c' r' :
  run n c r tr e c' r' →
  ∀ m tr2 e2 c2 r2, run m c r tr2 e2 c2 r2 → e ≠ Cut → e2 ≠ Cut →
  tr = tr2 ∧ e = e2 ∧ c' = c2 ∧ r' = r2.
Proof.
  induction 1 as [c r | n c r Hnil | n c r rows err Hrows Hne Henc
                 | n c r rows csv p tr e c' r' Hrows Henc Hlast Hrun IH];
    intros m tr2 e2 c2 r2 Hrun2 He He2; try congruence.
  - inversion Hrun2; subst; try congruence; try empty_last. done.
  - inversion Hrun2; subst; try congruence; try empty_last.
    repeat split; congruence.
  - inversion Hrun2; subst; try congruence; try empty_last.
    assert (csv0 = csv) as -> by congruence.
    assert (p0 = p) as -> by congruence.
    destruct (IH _ _ _ _ _ ltac:(eassumption) He He2) as (-> & -> & -> & ->).
    done.
Qed.

(** A run that stopped somewhere, continued from there, is a run. *)
Lemma run_resume k c r tr1 e1 c1 r1 :
  run k c r tr1 e1 c1 r1 →
  ∀ n tr2 e2 c2 r2, run n c1 r1 tr2 e2 c2 r2 → e2 ≠ Cut →
  ∃ m tr, run m c r tr e2 c2 r2.
Proof.
  induction 1 as [c r | k c r Hnil | k c r rows err Hrows Hne Henc
                 | k c r rows csv p tr1 e1 c1 r1 Hrows Henc Hlast Hrun IH];
    intros n tr2 e2 c2 r2 Hrun2 He2.
  - eauto.
  - eauto.
  - eauto.
  - destruct (IH _ _ _ _ _ Hrun2 He2) as (m & tr & Hm).
    exists (S m). eexists. eapply run_chunk; eauto.
Qed.

(** Each fetch of a run is made at the cursor of the moment. *)
Lemma run_follows n c r tr e c' r' :
  run n c r tr e c' r' →
  ∀ tail, follows_cursor jobId wh c' tail → follows_cursor jobId wh c (tr ++ tail).
Proof.
  assert (Hok : ∀ c, chunk_ok c (findMany (chunk_query wh c) table)).
  { intros c0. repeat split.
    - apply chunk_above.
    - apply chunk_sorted.
    - rewrite chunk_length. lia. }
  induction 1 as [c r | n c r Hnil | n c r rows err Hrows Hne Henc
                 | n c r rows csv p tr e c' r' Hrows Henc Hlast Hrun IH];
    intros tail Htail; cbn [app follows_cursor].
  - exact Htail.
  - split; [reflexivity |]. split; [|exact Htail]. rewrite <- Hnil. apply Hok.
  - split; [reflexivity |]. split; [|exact Htail]. rewrite <- Hrows. apply Hok.
  - split; [reflexivity |]. split; [rewrite <- Hrows; apply Hok |].
    rewrite decide_True by reflexivity. cbn [progress_write ExportJob.set_lastCursor default from_option]. unfold id.
    now apply IH.
Qed.

(** The job row moves forward along a run. *)
Lemma run_forward n c r tr e c' r' :
  run n c r tr e c' r' →
  ∀ j tail,
    ExportJob.lastCursor j = c → ExportJob.rowsExported j = r →
    (∀ j', ExportJob.lastCursor j' = c' → ExportJob.rowsExported j' = r' →
           forward j' (history jobId j' tail)) →
    forward j (history jobId j (tr ++ tail)).
Proof.
  induction 1 as [c r | n c r Hnil | n c r rows err Hrows Hne Henc
                 | n c r rows csv p tr e c' r' Hrows Henc Hlast Hrun IH];
    intros j tail Hc Hr Htail; cbn [app history]; try (now apply Htail).
  rewrite decide_True by reflexivity. cbn [forward].
  cbn [ExportJob.apply progress_write ExportJob.set_lastCursor
         ExportJob.set_rowsExported ExportJob.set_status default from_option
         ExportJob.lastCursor ExportJob.rowsExported]. unfold id.
  split; [|split].
  - rewrite Hc. subst rows.
    apply last_Some_elem_of, chunk_elem in Hlast as [Hm _].
    apply matches_bound in Hm. lia.
  - lia.
  - now apply IH.
Qed.

(** The job row after a run holds the last cursor and count. *)
Lemma run_replay n c r tr e c' r' :
  run n c r tr e c' r' →
  ∀ j tail,
    replay jobId (in_progress j c r) (tr ++ tail)
    = replay jobId (in_progress j c' r') tail.
Proof.
  induction 1 as [c r | n c r Hnil | n c r rows err Hrows Hne Henc
                 | n c r rows csv p tr e c' r' Hrows Henc Hlast Hrun IH];
    intros j tail; cbn [app replay]; try reflexivity.
  rewrite decide_True by reflexivity. now rewrite <- IH.
Qed.

(** *** Runs over a table with a primary key, every row of which can be
    encoded *)

Lemma rowToCsvLine_encodable p :
  encodable p → ∃ line, csvUtils.rowToCsvLine p = Ok line.
Proof.
  unfold encodable, csvUtils.rowToCsvLine. destruct (csvUtils.createdAt p) as [|t].
  - congruence.
  - intros _. unfold Js.toISOString.
    destruct (Js.civil_from_days _) as [[y mo] dd]. eauto.
Qed.

Lemma encode_encodable rows :
  Forall encodable rows → ∃ csv, streamRoute.encode rows = Ok csv.
Proof.
  induction 1 as [|p rows Hp _ [csv IH]]; cbn [streamRoute.encode]; [eauto |].
  destruct (rowToCsvLine_encodable p Hp) as [line ->]. rewrite IH. eauto.
Qed.

Hypothesis table_encodable : Forall encodable table.

Lemma chunk_encodable c :
  ∃ csv, streamRoute.encode (findMany (chunk_query wh c) table) = Ok csv.
Proof.
  apply encode_encodable, Forall_forall. intros p Hp.
  apply chunk_elem in Hp as [_ Hp].
  now apply (proj1 (Forall_forall _ _) table_encodable).
Qed.

Lemma run_breaks n c r tr e c' r' :
  run n c r tr e c' r' → (ahead c < n)%nat → e = Break.
Proof.
  induction 1 as [c r | n c r Hnil | n c r rows err Hrows Hne Henc
                 | n c r rows csv p tr e c' r' Hrows Henc Hlast Hrun IH];
    intros Hn; [lia | reflexivity | |].
  - subst rows. destruct (chunk_encodable c) as [csv Hcsv]. congruence.
  - apply IH. subst rows. apply ahead_decreases in Hlast. lia.
Qed.

Hypothesis table_key : NoDup (csvUtils.id <$> table).

(** The fetches of a complete run: full chunks, the rest, and the empty
    fetch; one advance for each fetch but the last; every row counted. *)
Lemma run_plan n c r tr c' r' :
  run n c r tr Break c' r' →
  (∀ fuel, (ahead c < fuel)%nat → fetch_sizes tr = chunk_sizes fuel (ahead c))
  ∧ S (length (advances tr)) = length (fetch_sizes tr)
  ∧ r' = r + Z.of_nat (ahead c).
Proof.
  remember Break as e eqn:He.
  induction 1 as [c r | n c r Hnil | n c r rows err Hrows Hne Henc
                 | n c r rows csv p tr e c' r' Hrows Henc Hlast Hrun IH];
    try discriminate.
  - apply chunk_nil in Hnil. rewrite Hnil. split; [|split].
    + intros [|fuel] Hf; [lia | reflexivity].
    + reflexivity.
    + lia.
  - destruct (IH He) as (IHsizes & IHadv & IHr).
    pose proof (chunk_length table wh c) as Hlen.
    pose proof (ahead_after_chunk table wh c p table_key) as Hafter.
    rewrite Hrows in Hlen, Hafter. specialize (Hafter Hlast).
    assert (Hpos : ahead c ≠ 0%nat).
    { intros H0. apply chunk_nil in H0. rewrite Hrows in H0. rewrite H0 in Hlast. discriminate. }
    split; [|split].
    + intros [|fuel] Hf; [lia |]. cbn [chunk_sizes].
      destruct (Nat.eqb_spec (ahead c) 0) as [|_]; [contradiction |].
      rewrite fetch_sizes_chunk, Hlen. f_equal.
      rewrite <- Hlen, <- Hafter. apply IHsizes.
      pose proof (ahead_decreases table wh c p) as Hdec.
      rewrite Hrows in Hdec. specialize (Hdec Hlast). lia.
    + rewrite fetch_sizes_chunk, advances_chunk. cbn [length]. now rewrite IHadv.
    + rewrite IHr, Hafter. lia.
Qed.
End RunFacts.


(** * The handlers, seen from outside *)

Section HandlerFacts.
Context `{DataSource}.
Import LoopSpec Observe.

Implicit Types (w : World) (jobId : string) (job : ExportJob.t)
  (tr : list Effect) (c r : Z) (e : End) (o : Outcome unit).

(** Every run of [start] on an existing job, read off its result. *)
Lemma start_inv turns jobId w job o w' :
  exportJob w !! jobId = Some job →
  streamRoute.start turns jobId w = (o, w') →
  ∃ tr e c' r',
    run (product w) jobId (ExportJob.totalRows job)
      (streamRoute.where_of (ExportJob.filters job)) turns
      (ExportJob.lastCursor job) (ExportJob.rowsExported job) tr e c' r'
    ∧ o = start_outcome e
    ∧ product w' = product w
    ∧ exportJob w' = <[jobId := final_job job e c' r']> (exportJob w)
    ∧ trace w' = trace w ++ prologue jobId job ++ tr ++ epilogue jobId e r'.
Proof.
  intros Hjob Hstart.
  destruct (start_run turns jobId w job Hjob) as (tr & e & c' & r' & Hrun & Heq).
  rewrite Heq in Hstart. injection Hstart as <- <-.
  exists tr, e, c', r'. auto.
Qed.

Lemma ahead_le_table table wh c : (ahead table wh c ≤ length table)%nat.
Proof. apply length_filter. Qed.

(** [GET] always runs the loop to its end. *)
Lemma GET_inv jobId w job o w' :
  exportJob w !! jobId = Some job →
  streamRoute.GET jobId w = (o, w') →
  ∃ tr e c' r',
    run (product w) jobId (ExportJob.totalRows job)
      (streamRoute.where_of (ExportJob.filters job)) (streamRoute.enough w)
      (ExportJob.lastCursor job) (ExportJob.rowsExported job) tr e c' r'
    ∧ e ≠ Cut
    ∧ o = Returned tt
    ∧ product w' = product w
    ∧ exportJob w' = <[jobId := final_job job e c' r']> (exportJob w)
    ∧ trace w' = trace w ++ prologue jobId job ++ tr ++ epilogue jobId e r'.
Proof.
  intros Hjob Hget.
  destruct (start_inv _ _ _ _ _ _ Hjob Hget)
    as (tr & e & c' & r' & Hrun & -> & Hprod & Hjobs & Htrace).
  assert (He : e ≠ Cut).
  { eapply run_ends; [exact Hrun |]. unfold streamRoute.enough.
    pose proof (ahead_le_table (product w)
                  (streamRoute.where_of (ExportJob.filters job))
                  (ExportJob.lastCursor job)). lia. }
  exists tr, e, c', r'. repeat split; try assumption.
  now destruct e.
Qed.

Lemma where_of_unbound filters :
  Where.id_gt (streamRoute.where_of filters) = None.
Proof.
  unfold streamRoute.where_of.
  now destruct (exportRoute.truthy _), (exportRoute.truthy _), (exportRoute.truthy _).
Qed.

Lemma where_of_same filters :
  streamRoute.where_of filters = exportRoute.where_of filters.
Proof. reflexivity. Qed.

(** Rows ahead of the cursor are among the rows the filters match. *)
Lemma ahead_le_count table filters c :
  Z.of_nat (ahead table (streamRoute.where_of filters) c)
  ≤ count (streamRoute.where_of filters) table.
Proof.
  unfold ahead, count.
  rewrite <- (list_filter_filter_l
                (matches (Where.with_id_gt (streamRoute.where_of filters) c))
                (matches (streamRoute.where_of filters))).
  - pose proof (length_filter
                  (matches (Where.with_id_gt (streamRoute.where_of filters) c))
                  (filter (matches (streamRoute.where_of filters)) table)). lia.
  - intros p Hp. now apply matches_unbound in Hp as [Hp _];
      [|apply where_of_unbound].
Qed.

(** From cursor [c], with every key above [c], all matching rows are
    ahead. *)
Lemma ahead_all table filters c :
  Forall (λ p, c < csvUtils.id p) table →
  Z.of_nat (ahead table (streamRoute.where_of filters) c)
  = count (streamRoute.where_of filters) table.
Proof.
  intros Hpos. unfold ahead, count. do 2 f_equal.
  induction Hpos as [|p table Hp _ IH]; [reflexivity |].
  rewrite !filter_cons, IH.
  destruct (decide (matches (streamRoute.where_of filters) p)) as [Hm|Hm].
  - rewrite decide_True; [reflexivity |].
    apply matches_unbound; [apply where_of_unbound | auto].
  - rewrite decide_False; [reflexivity |].
    intros Hbad. apply Hm.
    now apply matches_unbound in Hbad as [Hbad _]; [|apply where_of_unbound].
Qed.

Lemma forward_all job later :
  forward job later →
  Forall (λ j', ExportJob.lastCursor job ≤ ExportJob.lastCursor j'
                ∧ ExportJob.rowsExported job ≤ ExportJob.rowsExported j') later.
Proof.
  revert job. induction later as [|j later IH]; intros job; [constructor |].
  cbn [forward]. intros (Hc & Hr & Hrest). constructor; [auto |].
  eapply Forall_impl; [apply IH, Hrest |]. cbn. intros j' [? ?]. lia.
Qed.

(** The statuses a status-only epilogue leaves do not move the cursor. *)
Lemma forward_epilogue jobId e r' j :
  forward j (history jobId j (epilogue jobId e r')).
Proof.
  destruct e; cbn [epilogue history forward]; [| |exact I];
    rewrite decide_True by reflexivity; cbn; lia.
Qed.

Lemma replay_epilogue jobId job e c' r' :
  replay jobId (in_progress job c' r') (epilogue jobId e r') = final_job job e c' r'.
Proof.
  destruct e; cbn [epilogue replay]; [| |reflexivity];
    now rewrite decide_True by reflexivity.
Qed.

Lemma follows_epilogue jobId wh c e r' :
  follows_cursor jobId wh c (epilogue jobId e r').
Proof. destruct e; cbn; auto. Qed.

Lemma fetches_app tr1 tr2 : fetches (tr1 ++ tr2) = fetches tr1 ++ fetches tr2.
Proof. unfold fetches. apply omap_app. Qed.

Lemma fetch_sizes_app tr1 tr2 :
  fetch_sizes (tr1 ++ tr2) = fetch_sizes tr1 ++ fetch_sizes tr2.
Proof. unfold fetch_sizes. now rewrite fetches_app, fmap_app. Qed.

Lemma advances_app tr1 tr2 : advances (tr1 ++ tr2) = advances tr1 ++ advances tr2.
Proof. unfold advances. apply omap_app. Qed.

Lemma fetches_epilogue jobId e r' : fetches (epilogue jobId e r') = [].
Proof. now destruct e. Qed.

Lemma advances_epilogue jobId e r' : advances (epilogue jobId e r') = [].
Proof. now destruct e. Qed.

(** A trace that follows the cursor only asks with the job's filters. *)
Lemma follows_where jobId wh c tr :
  follows_cursor jobId wh c tr →
  Forall (λ f, ∃ c', fst f = chunk_query wh c') (fetches tr).
Proof.
  revert c. induction tr as [|ev tr IH]; intros c; [constructor |].
  destruct ev; cbn [follows_cursor]; unfold fetches; cbn [omap list_omap];
    fold (fetches tr); eauto.
  intros (-> & _ & Hrest). constructor; eauto.
Qed.

(** The first operation of a run with at least one turn is a fetch at
    the starting cursor. *)
Lemma run_first_fetch table jobId total wh n c r tr e c' r' :
  run table jobId total wh (S n) c r tr e c' r' →
  ∃ rows tr', tr = ProductFindMany (chunk_query wh c) rows :: tr'.
Proof. inversion 1; subst; eauto. Qed.
End HandlerFacts.


(** * The properties of the specification *)

Section Properties.
Context `{DataSource}.
Import LoopSpec Observe.

(** C1.  In every run of the stream on a job whose stored cursor is
    [c] (any number of turns, so complete runs and runs cut short),
    each chunk fetch is the query [id > cursor], ascending by [id],
    [take] 1000, made with the cursor the job row holds at that moment,
    and it returns rows beyond that cursor, in ascending order, at most
    1000 of them; the first fetch is made at [c]. *)
Theorem fetches_follow_the_cursor (turns : nat) (jobId : string) (w w' : World)
    (job : ExportJob.t) (o : Outcome unit) :
  exportJob w !! jobId = Some job →
  streamRoute.start turns jobId w = (o, w') →
  ∃ tr,
    trace w' = trace w ++ tr
    ∧ follows_cursor jobId (streamRoute.where_of (ExportJob.filters job))
        (ExportJob.lastCursor job) tr
    ∧ (∀ c, Where.id_gt (where_ (chunk_query
               (streamRoute.where_of (ExportJob.filters job)) c)) = Some c
            ∧ orderBy_id (chunk_query
               (streamRoute.where_of (ExportJob.filters job)) c) = asc
            ∧ take_ (chunk_query
               (streamRoute.where_of (ExportJob.filters job)) c) = 1000%nat)
    ∧ ((0 < turns)%nat →
       ∃ rows, head (fetches tr)
               = Some (chunk_query (streamRoute.where_of (ExportJob.filters job))
                         (ExportJob.lastCursor job), rows)).
Proof.
  intros Hjob Hstart.
  destruct (start_inv _ _ _ _ _ _ Hjob Hstart)
    as (tr & e & c' & r' & Hrun & _ & _ & _ & Htrace).
  eexists. split; [exact Htrace |]. split; [|split].
  - cbn [prologue app follows_cursor]. rewrite decide_True by reflexivity.
    cbn [status_write ExportJob.set_lastCursor default from_option].
    eapply run_follows; [exact Hrun |]. apply follows_epilogue.
  - intros c. repeat split.
  - intros Hturns. destruct turns as [|n]; [lia |].
    destruct (run_first_fetch _ _ _ _ _ _ _ _ _ _ _ Hrun) as (rows & tr' & ->).
    exists rows. reflexivity.
Qed.

(** C2.  Along every run of the stream on one job, the successive
    states of the job row never lower [lastCursor] or [rowsExported]:
    each completed write leaves both at least as large as before, hence
    at least as large as the values read at the start; and the row found
    in the store afterwards is the last of these states. *)
Theorem progress_only_moves_forward (turns : nat) (jobId : string) (w w' : World)
    (job : ExportJob.t) (o : Outcome unit) :
  exportJob w !! jobId = Some job →
  streamRoute.start turns jobId w = (o, w') →
  ∃ tr,
    trace w' = trace w ++ tr
    ∧ forward job (history jobId job tr)
    ∧ Forall (λ j', ExportJob.lastCursor job ≤ ExportJob.lastCursor j'
                    ∧ ExportJob.rowsExported job ≤ ExportJob.rowsExported j')
        (history jobId job tr)
    ∧ exportJob w' !! jobId = Some (replay jobId job tr).
Proof.
  intros Hjob Hstart.
  destruct (start_inv _ _ _ _ _ _ Hjob Hstart)
    as (tr & e & c' & r' & Hrun & _ & _ & Hjobs & Htrace).
  eexists. split; [exact Htrace |].
  assert (Hfwd : forward job
                   (history jobId job (prologue jobId job ++ tr ++ epilogue jobId e r'))).
  { cbn [prologue app history]. rewrite decide_True by reflexivity.
    cbn [forward]. split; [cbn; lia |]. split; [cbn; lia |].
    eapply run_forward; [exact Hrun | reflexivity | reflexivity |].
    intros j' _ _. apply forward_epilogue. }
  split; [exact Hfwd |]. split; [now apply forward_all |].
  rewrite Hjobs, lookup_insert_eq. f_equal.
  cbn [prologue app replay]. rewrite decide_True by reflexivity.
  change (ExportJob.apply (status_write "PROCESSING") job)
    with (in_progress job (ExportJob.lastCursor job) (ExportJob.rowsExported job)).
  rewrite (run_replay _ _ _ _ _ _ _ _ _ _ _ Hrun).
  now rewrite replay_epilogue.
Qed.

(** Job creation and the status read leave every existing row as it
    is. *)
Lemma POST_keeps_jobs newId body w o1 w1 jobId job :
  exportJob w !! jobId = Some job →
  exportRoute.POST newId body w = (o1, w1) →
  exportJob w1 !! jobId = Some job.
Proof.
  intros Hjob. unfold exportRoute.POST, mbind, M_bind, prisma_product_count,
    prisma_exportJob_create, exportJob_create.
  cbn [product exportJob trace ExportJob.id].
  destruct (exportJob w !! newId) as [old|] eqn:Hnew.
  - intros [= <- <-]. exact Hjob.
  - intros [= <- <-]. cbn [exportJob].
    rewrite lookup_insert_ne; [exact Hjob | congruence].
Qed.

Lemma status_GET_keeps_jobs jobId w o2 w2 :
  statusRoute.GET jobId w = (o2, w2) → exportJob w2 = exportJob w.
Proof.
  unfold statusRoute.GET, mbind, M_bind, prisma_exportJob_findUnique.
  destruct (exportJob w !! jobId); intros [= <- <-]; reflexivity.
Qed.

(** C3 (amended).  Done is not terminal for the stream: started on a
    job whose status is DONE, the stream first rewrites the status to
    PROCESSING (cursor and count untouched) and leaves the job DONE
    again, or FAILED when a chunk could not be encoded; job creation
    and the status read never change the row of an existing job. *)
Theorem done_job_is_reprocessed (jobId : string) (w w' : World)
    (job : ExportJob.t) (o : Outcome unit) :
  exportJob w !! jobId = Some job →
  ExportJob.status job = "DONE" →
  streamRoute.GET jobId w = (o, w') →
  ∃ tr job',
    trace w' = trace w ++ tr
    ∧ head (history jobId job tr)
      = Some (in_progress job (ExportJob.lastCursor job) (ExportJob.rowsExported job))
    ∧ exportJob w' !! jobId = Some job'
    ∧ (ExportJob.status job' = "DONE" ∨ ExportJob.status job' = "FAILED")
    ∧ (∀ newId body o1 w1,
         exportRoute.POST newId body w = (o1, w1) → exportJob w1 !! jobId = Some job)
    ∧ (∀ o2 w2, statusRoute.GET jobId w = (o2, w2) → exportJob w2 = exportJob w).
Proof.
  intros Hjob Hdone Hget.
  destruct (GET_inv _ _ _ _ _ Hjob Hget)
    as (tr & e & c' & r' & Hrun & He & _ & _ & Hjobs & Htrace).
  exists (prologue jobId job ++ tr ++ epilogue jobId e r'), (final_job job e c' r').
  split; [exact Htrace |]. split; [|split; [|split; [|split]]].
  - cbn [prologue app history]. now rewrite decide_True by reflexivity.
  - now rewrite Hjobs, lookup_insert_eq.
  - destruct e; cbn; auto. congruence.
  - intros newId body o1 w1. now apply POST_keeps_jobs.
  - intros o2 w2. apply status_GET_keeps_jobs.
Qed.

(** C4.  Over one table, a first pass cut short after [k] turns of the
    loop ([k = 1]: after chunk 1 was persisted) followed by a second,
    complete pass that resumes from the stored row leaves the same job
    table, hence the same [lastCursor] and [rowsExported], as a single
    complete pass. *)
Theorem resume_ends_where_one_pass_ends (k : nat) (jobId : string)
    (w w1 w2 w' : World) (job : ExportJob.t) (o1 o2 o : Outcome unit) :
  exportJob w !! jobId = Some job →
  streamRoute.start k jobId w = (o1, w1) →
  streamRoute.GET jobId w1 = (o2, w2) →
  streamRoute.GET jobId w = (o, w') →
  exportJob w2 = exportJob w'
  ∧ ExportJob.lastCursor <$> exportJob w2 !! jobId
    = ExportJob.lastCursor <$> exportJob w' !! jobId
  ∧ ExportJob.rowsExported <$> exportJob w2 !! jobId
    = ExportJob.rowsExported <$> exportJob w' !! jobId.
Proof.
  intros Hjob Hfirst Hsecond Hone.
  destruct (start_inv _ _ _ _ _ _ Hjob Hfirst)
    as (tr1 & e1 & c1 & r1 & Hrun1 & _ & Hprod1 & Hjobs1 & _).
  assert (Hjob1 : exportJob w1 !! jobId = Some (final_job job e1 c1 r1))
    by now rewrite Hjobs1, lookup_insert_eq.
  destruct (GET_inv _ _ _ _ _ Hjob1 Hsecond)
    as (tr2 & e2 & c2 & r2 & Hrun2 & He2 & _ & _ & Hjobs2 & _).
  destruct (GET_inv _ _ _ _ _ Hjob Hone)
    as (tr & e & c' & r' & Hrun & He & _ & _ & Hjobs & _).
  cbn [final_job ExportJob.filters ExportJob.totalRows ExportJob.lastCursor
         ExportJob.rowsExported] in Hrun2.
  rewrite Hprod1 in Hrun2.
  destruct (run_resume _ _ _ _ _ _ _ _ _ _ _ Hrun1 _ _ _ _ _ Hrun2 He2)
    as (m & tr3 & Hrun3).
  destruct (run_deterministic _ _ _ _ _ _ _ _ _ _ _ Hrun _ _ _ _ _ Hrun3 He He2)
    as (_ & -> & -> & ->).
  assert (Heq : exportJob w2 = exportJob w').
  { rewrite Hjobs2, Hjobs1, Hjobs, insert_insert_eq. reflexivity. }
  now rewrite Heq.
Qed.

Lemma apply_twice d job :
  ExportJob.apply d (ExportJob.apply d job) = ExportJob.apply d job.
Proof.
  destruct d as [[s|] [c|] [r|]]; reflexivity.
Qed.

(** C6 (amended).  The write of the store fails when no row has the
    given id and otherwise overwrites the named columns, whatever the
    cursor already stored; repeated with the same arguments it succeeds
    again and leaves the same table. *)
Theorem update_overwrites (id : string) (d : ExportJob.data)
    (jobs : gmap string ExportJob.t) :
  match jobs !! id with
  | None => ∃ err, exportJob_update id d jobs = Throw err
  | Some job =>
      exportJob_update id d jobs = Ok (<[id := ExportJob.apply d job]> jobs)
      ∧ exportJob_update id d (<[id := ExportJob.apply d job]> jobs)
        = Ok (<[id := ExportJob.apply d job]> jobs)
  end.
Proof.
  destruct (jobs !! id) as [job|] eqn:Hjob.
  - split; [now apply update_present |].
    erewrite update_present by apply lookup_insert_eq.
    now rewrite apply_twice, insert_insert_eq.
  - now apply update_absent.
Qed.

(** C7.  When no row matches the filters of the job, the stream makes
    exactly one fetch, which is empty, sends the header and the [done]
    event and nothing else, and leaves the job DONE. *)
Theorem empty_export (jobId : string) (w : World) (job : ExportJob.t) :
  exportJob w !! jobId = Some job →
  count (streamRoute.where_of (ExportJob.filters job)) (product w) = 0 →
  ∃ w' tr,
    streamRoute.GET jobId w = (Returned tt, w')
    ∧ trace w' = trace w ++ tr
    ∧ tr = [ JobFindUnique jobId (Some job);
             JobUpdate jobId (status_write "PROCESSING");
             Send csvUtils.CSV_HEADER;
             ProductFindMany
               (chunk_query (streamRoute.where_of (ExportJob.filters job))
                  (ExportJob.lastCursor job)) [];
             JobUpdate jobId (status_write "DONE");
             SendEvent "done" (DoneData (ExportJob.rowsExported job));
             Close ]
    ∧ length (fetches tr) = 1%nat
    ∧ messages tr = [csvUtils.CSV_HEADER]
    ∧ events tr = [("done", DoneData (ExportJob.rowsExported job))]
    ∧ ExportJob.status <$> exportJob w' !! jobId = Some "DONE".
Proof.
  intros Hjob Hcount.
  destruct (streamRoute.GET jobId w) as [o w'] eqn:Hget.
  destruct (GET_inv _ _ _ _ _ Hjob Hget)
    as (tr & e & c' & r' & Hrun & He & -> & _ & Hjobs & Htrace).
  assert (Hnil : findMany (chunk_query (streamRoute.where_of (ExportJob.filters job))
                             (ExportJob.lastCursor job)) (product w) = []).
  { apply chunk_nil.
    pose proof (ahead_le_count (product w) (ExportJob.filters job)
                  (ExportJob.lastCursor job)). lia. }
  unfold streamRoute.enough in Hrun.
  inversion Hrun; subst; try congruence;
    try (exfalso;
         match goal with
         | Hl : last (findMany ?q ?t) = Some _ |- _ => rewrite Hnil in Hl; discriminate
         end).
  exists w'. eexists. split; [reflexivity |]. split; [exact Htrace |].
  repeat split. now rewrite Hjobs, lookup_insert_eq.
Qed.

(** A complete run over a table with a primary key whose rows can all
    be encoded. *)
Lemma complete_run (jobId : string) (w : World) (job : ExportJob.t) :
  exportJob w !! jobId = Some job →
  NoDup (csvUtils.id <$> product w) →
  Forall encodable (product w) →
  ∃ w' tr c',
    streamRoute.GET jobId w = (Returned tt, w')
    ∧ trace w' = trace w ++ tr
    ∧ fetch_sizes tr
      = fetch_plan (ahead (product w) (streamRoute.where_of (ExportJob.filters job))
                      (ExportJob.lastCursor job))
    ∧ S (length (advances tr)) = length (fetch_sizes tr)
    ∧ exportJob w' !! jobId
      = Some (final_job job Break c'
                (ExportJob.rowsExported job
                 + Z.of_nat (ahead (product w)
                               (streamRoute.where_of (ExportJob.filters job))
                               (ExportJob.lastCursor job)))).
Proof.
  intros Hjob Hkey Henc.
  destruct (streamRoute.GET jobId w) as [o w'] eqn:Hget.
  destruct (GET_inv _ _ _ _ _ Hjob Hget)
    as (tr & e & c' & r' & Hrun & He & -> & _ & Hjobs & Htrace).
  assert (e = Break) as ->.
  { eapply run_breaks; [exact Henc | exact Hrun |].
    unfold streamRoute.enough.
    pose proof (ahead_le_table (product w)
                  (streamRoute.where_of (ExportJob.filters job))
                  (ExportJob.lastCursor job)). lia. }
  destruct (run_plan _ _ _ _ Hkey _ _ _ _ _ _ Hrun) as (Hsizes & Hadv & ->).
  exists w', (prologue jobId job ++ tr ++ epilogue jobId Break
                (ExportJob.rowsExported job
                 + Z.of_nat (ahead (product w)
                               (streamRoute.where_of (ExportJob.filters job))
                               (ExportJob.lastCursor job)))), c'.
  split; [reflexivity |]. split; [exact Htrace |].
  rewrite !fetch_sizes_app, !advances_app.
  change (fetch_sizes (prologue jobId job)) with (@nil nat).
  change (advances (prologue jobId job)) with (@nil (Z * Z)).
  change (fetch_sizes (epilogue jobId Break _)) with (@nil nat).
  change (advances (epilogue jobId Break _)) with (@nil (Z * Z)).
  rewrite !app_nil_r. cbn [app].
  split; [|split].
  - apply Hsizes. lia.
  - exact Hadv.
  - now rewrite Hjobs, lookup_insert_eq.
Qed.

(** C8 (amended).  A fresh job over a table in which exactly [n] rows
    match its filters (keys distinct and positive, every row encodable)
    runs to the end with one fetch per full or partial chunk and one
    last, empty fetch, one cursor advance per non-empty fetch,
    [rowsExported = n] and status DONE.  For 2,500 rows that is four
    fetches, of 1000, 1000, 500 and 0 rows, and three advances; for
    exactly 1000 rows, one fetch of 1000 rows and one empty fetch. *)
Theorem export_in_chunks (jobId : string) (w : World) (job : ExportJob.t) (n : nat) :
  exportJob w !! jobId = Some job →
  ExportJob.lastCursor job = 0 →
  ExportJob.rowsExported job = 0 →
  NoDup (csvUtils.id <$> product w) →
  Forall (λ p, 0 < csvUtils.id p) (product w) →
  Forall encodable (product w) →
  count (streamRoute.where_of (ExportJob.filters job)) (product w) = Z.of_nat n →
  ∃ w' tr job',
    streamRoute.GET jobId w = (Returned tt, w')
    ∧ trace w' = trace w ++ tr
    ∧ fetch_sizes tr = fetch_plan n
    ∧ S (length (advances tr)) = length (fetch_plan n)
    ∧ exportJob w' !! jobId = Some job'
    ∧ ExportJob.rowsExported job' = Z.of_nat n
    ∧ ExportJob.status job' = "DONE"
    ∧ fetch_plan 2500 = [1000; 1000; 500; 0]%nat
    ∧ fetch_plan 1000 = [1000; 0]%nat.
Proof.
  intros Hjob Hc Hr Hkey Hpos Henc Hcount.
  destruct (complete_run jobId w job Hjob Hkey Henc)
    as (w' & tr & c' & Hget & Htrace & Hsizes & Hadv & Hfinal).
  assert (Hahead : ahead (product w) (streamRoute.where_of (ExportJob.filters job))
                     (ExportJob.lastCursor job) = n).
  { apply Nat2Z.inj. rewrite <- Hcount, Hc. now apply ahead_all. }
  rewrite Hahead in *.
  exists w', tr. eexists. split; [exact Hget |]. split; [exact Htrace |].
  split; [exact Hsizes |]. split; [now rewrite <- Hsizes |].
  split; [exact Hfinal |]. cbn [final_job ExportJob.rowsExported ExportJob.status
                                  final_status].
  split; [lia |]. split; [reflexivity |]. split; vm_compute; reflexivity.
Qed.

Lemma where_of_rule filters :
  Where.category (exportRoute.where_of filters)
  = (if exportRoute.truthy (Filters.category filters)
     then Some (Filters.category filters) else None)
  ∧ Where.status (exportRoute.where_of filters)
    = (if exportRoute.truthy (Filters.status filters)
       then Some (Filters.status filters) else None)
  ∧ Where.name_contains (exportRoute.where_of filters)
    = (if exportRoute.truthy (Filters.search filters)
       then Some (Filters.search filters) else None)
  ∧ Where.id_gt (exportRoute.where_of filters) = None.
Proof.
  unfold exportRoute.where_of.
  now destruct (exportRoute.truthy (Filters.category filters)),
    (exportRoute.truthy (Filters.status filters)),
    (exportRoute.truthy (Filters.search filters)).
Qed.

(** What [POST] does when it returns. *)
Lemma POST_inv newId body w jid total w1 :
  exportRoute.POST newId body w = (Returned (jid, total), w1) →
  let filters :=
    {| Filters.category := default EmptyString (exportRoute.category body);
       Filters.status := default EmptyString (exportRoute.status body);
       Filters.search := default EmptyString (exportRoute.search body) |} in
  jid = newId
  ∧ total = count (exportRoute.where_of filters) (product w)
  ∧ product w1 = product w
  ∧ exportJob w1 !! newId
    = Some (ExportJob.mk newId filters "PENDING" 0 0 total).
Proof.
  unfold exportRoute.POST, mbind, M_bind, prisma_product_count,
    prisma_exportJob_create, exportJob_create.
  cbn [product exportJob trace ExportJob.id].
  destruct (exportJob w !! newId) as [old|]; [discriminate |].
  intros [= <- <- <-]. cbn [product exportJob]. rewrite lookup_insert_eq.
  repeat split.
Qed.

(** C9.  The job created by [POST] stores as [totalRows] the number of
    rows under the [where] built from its filters (a key per non-empty
    filter: equality on [category], equality on [status], [contains] on
    [name]); the stream builds the same [where] from the stored filters,
    and every chunk fetch of every later run uses exactly it, with the
    cursor bound added. *)
Theorem creation_counts_what_the_stream_scans (newId : string)
    (body : exportRoute.Body) (w w1 : World) (jid : string) (total : Z) :
  exportRoute.POST newId body w = (Returned (jid, total), w1) →
  ∃ job,
    exportJob w1 !! jid = Some job
    ∧ product w1 = product w
    ∧ ExportJob.totalRows job = total
    ∧ total = count (exportRoute.where_of (ExportJob.filters job)) (product w)
    ∧ streamRoute.where_of (ExportJob.filters job)
      = exportRoute.where_of (ExportJob.filters job)
    ∧ Where.category (exportRoute.where_of (ExportJob.filters job))
      = (if exportRoute.truthy (Filters.category (ExportJob.filters job))
         then Some (Filters.category (ExportJob.filters job)) else None)
    ∧ Where.status (exportRoute.where_of (ExportJob.filters job))
      = (if exportRoute.truthy (Filters.status (ExportJob.filters job))
         then Some (Filters.status (ExportJob.filters job)) else None)
    ∧ Where.name_contains (exportRoute.where_of (ExportJob.filters job))
      = (if exportRoute.truthy (Filters.search (ExportJob.filters job))
         then Some (Filters.search (ExportJob.filters job)) else None)
    ∧ ∀ turns o w2,
        streamRoute.start turns jid w1 = (o, w2) →
        ∃ tr,
          trace w2 = trace w1 ++ tr
          ∧ Forall (λ f, ∃ c,
                      fst f = chunk_query (exportRoute.where_of (ExportJob.filters job)) c
                      ∧ snd f = findMany (fst f) (product w))
              (fetches tr).
Proof.
  intros Hpost. destruct (POST_inv _ _ _ _ _ _ Hpost) as (-> & Htotal & Hprod & Hjob).
  eexists. split; [exact Hjob |]. split; [exact Hprod |].
  cbn [ExportJob.totalRows ExportJob.filters].
  split; [reflexivity |]. split; [exact Htotal |]. split; [reflexivity |].
  destruct (where_of_rule
              {| Filters.category := default EmptyString (exportRoute.category body);
                 Filters.status := default EmptyString (exportRoute.status body);
                 Filters.search := default EmptyString (exportRoute.search body) |})
    as (Hcat & Hst & Hname & _).
  split; [exact Hcat |]. split; [exact Hst |]. split; [exact Hname |].
  intros turns o w2 Hstart.
  destruct (start_inv _ _ _ _ _ _ Hjob Hstart)
    as (tr & e & c' & r' & Hrun & _ & _ & _ & Htrace).
  eexists. split; [exact Htrace |].
  cbn [ExportJob.filters ExportJob.lastCursor ExportJob.rowsExported
         ExportJob.totalRows] in Hrun.
  rewrite Hprod in Hrun.
  rewrite !fetches_app. rewrite fetches_epilogue, app_nil_r.
  change (fetches (prologue newId _)) with (@nil (FindManyArgs * list csvUtils.ProductRow)).
  cbn [app]. clear -Hrun.
  induction Hrun as [c r | n c r Hnil | n c r rows err Hrows Hne Henc
                    | n c r rows csv p tr e c' r' Hrows Henc Hlast Hrun IH].
  - constructor.
  - repeat constructor. exists c. cbn [fst snd]. now rewrite Hnil.
  - repeat constructor. exists c. cbn [fst snd]. now rewrite Hrows.
  - unfold fetches. cbn [omap list_omap]. fold (fetches tr).
    constructor; [|exact IH]. exists c. cbn [fst snd]. now rewrite Hrows.
Qed.

Lemma blank_default field : blank field → default EmptyString field = EmptyString.
Proof. now intros [-> | ->]. Qed.

Lemma count_no_condition table : count Where.empty table = Z.of_nat (length table).
Proof.
  unfold count. do 2 f_equal. apply filter_all, Forall_forall. now intros p _.
Qed.

(** C10.  At job creation a filter field that is absent or the empty
    string puts no key in the [where] of the count (it is not compared
    with the empty string); with the three fields absent or empty the
    job is created with [totalRows] equal to the number of rows of the
    table. *)
Theorem blank_filter_is_no_filter (newId : string) (body : exportRoute.Body)
    (w : World) :
  exportJob w !! newId = None →
  ∃ job w1 wh,
    exportRoute.POST newId body w = (Returned (newId, ExportJob.totalRows job), w1)
    ∧ exportJob w1 !! newId = Some job
    ∧ trace w1 = trace w ++ [ProductCount wh (ExportJob.totalRows job); JobCreate job]
    ∧ ExportJob.totalRows job = count wh (product w)
    ∧ (blank (exportRoute.category body) → Where.category wh = None)
    ∧ (blank (exportRoute.status body) → Where.status wh = None)
    ∧ (blank (exportRoute.search body) → Where.name_contains wh = None)
    ∧ (blank (exportRoute.category body) → blank (exportRoute.status body) →
       blank (exportRoute.search body) →
       ExportJob.totalRows job = Z.of_nat (length (product w))).
Proof.
  intros Hfresh.
  set (filters :=
    {| Filters.category := default EmptyString (exportRoute.category body);
       Filters.status := default EmptyString (exportRoute.status body);
       Filters.search := default EmptyString (exportRoute.search body) |}).
  set (total := count (exportRoute.where_of filters) (product w)).
  exists (ExportJob.mk newId filters "PENDING" 0 0 total).
  eexists. exists (exportRoute.where_of filters).
  split.
  { unfold exportRoute.POST, mbind, M_bind, prisma_product_count,
      prisma_exportJob_create, exportJob_create.
    cbn [product exportJob trace ExportJob.id]. rewrite Hfresh. reflexivity. }
  cbn [exportJob trace ExportJob.totalRows].
  split; [apply lookup_insert_eq |].
  split; [now rewrite <- app_assoc |].
  split; [reflexivity |].
  destruct (where_of_rule filters) as (Hcat & Hst & Hname & _).
  split; [|split; [|split]].
  - intros Hb. rewrite Hcat. cbn [filters Filters.category].
    now rewrite (blank_default _ Hb).
  - intros Hb. rewrite Hst. cbn [filters Filters.status].
    now rewrite (blank_default _ Hb).
  - intros Hb. rewrite Hname. cbn [filters Filters.search].
    now rewrite (blank_default _ Hb).
  - intros Hb1 Hb2 Hb3. subst total filters.
    rewrite (blank_default _ Hb1), (blank_default _ Hb2), (blank_default _ Hb3).
    apply count_no_condition.
Qed.
End Properties.

(** C5.  Each of the seven fields of a line is written as RFC 4180
    asks: a value with a comma, a double quote or a line feed is put
    between double quotes with its quotes doubled, any other value is
    written as it is; and reading the header followed by the lines of
    two rows gives back the header names and the seven values of each
    row.  The name made of [Ultra,], a space,
    [Pro] between double quotes, a space and [Widget] is written between
    double quotes with its two inner quotes doubled, and read back
    unchanged. *)
Theorem csv_round_trip (r1 r2 : csvUtils.ProductRow) (l1 l2 : string) :
  csvUtils.rowToCsvLine r1 = Ok l1 →
  csvUtils.rowToCsvLine r2 = Ok l2 →
  ∃ iso1 iso2,
    Js.toISOString (csvUtils.createdAt r1) = Ok iso1
    ∧ Js.toISOString (csvUtils.createdAt r2) = Ok iso2
    ∧ l1 = (Js.join "," (Csv.rfc4180_field <$> Csv.fields r1 iso1) ++ str1 LF)%string
    ∧ l2 = (Js.join "," (Csv.rfc4180_field <$> Csv.fields r2 iso2) ++ str1 LF)%string
    ∧ Rfc4180.parseCsv (csvUtils.CSV_HEADER ++ l1 ++ l2)%string
      = Some [Csv.header_fields; Csv.fields r1 iso1; Csv.fields r2 iso2]
    ∧ (∀ val, csvUtils.escapeCsv val = Csv.rfc4180_field val)
    ∧ csvUtils.escapeCsv Sample.ultra = Sample.ultra_quoted
    ∧ Rfc4180.parseCsv (Sample.ultra_quoted ++ str1 LF)%string = Some [[Sample.ultra]].
Proof.
  intros H1 H2.
  destruct (rowToCsvLine_fields _ _ H1) as (iso1 & Hiso1 & _ & _ & Hl1).
  destruct (rowToCsvLine_fields _ _ H2) as (iso2 & Hiso2 & _ & _ & Hl2).
  exists iso1, iso2. split; [exact Hiso1 |]. split; [exact Hiso2 |].
  split; [exact Hl1 |]. split; [exact Hl2 |]. split; [|split; [|split]].
  - unfold Rfc4180.parseCsv. rewrite parse_header.
    destruct (parse_row r1 l1 ([] ++ [Csv.header_fields]) (l2 ++ EmptyString)%string H1)
      as (iso1' & Hiso1' & Hp1).
    destruct (parse_row r2 l2 (([] ++ [Csv.header_fields]) ++ [Csv.fields r1 iso1'])
                EmptyString H2) as (iso2' & Hiso2' & Hp2).
    rewrite append_empty_r in Hp1, Hp2. rewrite Hp1, Hp2.
    assert (iso1' = iso1) as -> by congruence.
    assert (iso2' = iso2) as -> by congruence.
    reflexivity.
  - apply escapeCsv_rfc4180.
  - reflexivity.
  - reflexivity.
Qed.


(** * The properties at concrete inputs *)

Import LoopSpec Observe.

Lemma pair_eta {A B} (x : A * B) : x = (fst x, snd x).
Proof. now destruct x. Defined.

(** Facts about concrete data are settled by evaluation. *)
Ltac evaluate := vm_compute; reflexivity.

(** The seeded tables have distinct, positive keys and valid dates. *)
Lemma sample_rows_key (n : nat) : NoDup (csvUtils.id <$> Sample.rows n).
Proof.
  unfold Sample.rows. rewrite <- list_fmap_compose.
  rewrite (list_fmap_ext (csvUtils.id ∘ Sample.row) (λ i, i) (seqZ 1 (Z.of_nat n)))
    by reflexivity.
  rewrite list_fmap_id. apply NoDup_seqZ.
Qed.

Lemma sample_rows_positive (n : nat) :
  Forall (λ p, 0 < csvUtils.id p) (Sample.rows n).
Proof.
  unfold Sample.rows. apply Forall_fmap, Forall_seqZ. intros i Hi. cbn. lia.
Qed.

Lemma sample_rows_encodable (n : nat) : Forall encodable (Sample.rows n).
Proof.
  unfold Sample.rows. apply Forall_fmap, Forall_forall. intros i _. discriminate.
Qed.

Lemma fetches_follow_the_cursor_witness :
  exportJob Sample.resumed_world !! "job1" = Some Sample.resumed_job
  ∧ ∃ tr,
      trace (snd Sample.resumed_run) = trace Sample.resumed_world ++ tr
      ∧ follows_cursor "job1" (streamRoute.where_of Sample.no_filters) 2 tr
      ∧ (∀ c, Where.id_gt (where_ (chunk_query
                 (streamRoute.where_of Sample.no_filters) c)) = Some c
              ∧ orderBy_id (chunk_query
                 (streamRoute.where_of Sample.no_filters) c) = asc
              ∧ take_ (chunk_query
                 (streamRoute.where_of Sample.no_filters) c) = 1000%nat)
      ∧ ((0 < 3)%nat →
         ∃ rows, head (fetches tr)
                 = Some (chunk_query (streamRoute.where_of Sample.no_filters) 2, rows)).
Proof.
  split; [evaluate |].
  apply (fetches_follow_the_cursor (H := Sample.substring) 3 "job1"
           Sample.resumed_world (snd Sample.resumed_run) Sample.resumed_job
           (fst Sample.resumed_run)).
  - evaluate.
  - apply pair_eta.
Defined.

Lemma progress_only_moves_forward_witness :
  exportJob Sample.resumed_world !! "job1" = Some Sample.resumed_job
  ∧ ∃ tr,
      trace (snd Sample.resumed_run) = trace Sample.resumed_world ++ tr
      ∧ forward Sample.resumed_job (history "job1" Sample.resumed_job tr)
      ∧ Forall (λ j', ExportJob.lastCursor Sample.resumed_job ≤ ExportJob.lastCursor j'
                      ∧ ExportJob.rowsExported Sample.resumed_job
                        ≤ ExportJob.rowsExported j')
          (history "job1" Sample.resumed_job tr)
      ∧ exportJob (snd Sample.resumed_run) !! "job1"
        = Some (replay "job1" Sample.resumed_job tr).
Proof.
  split; [evaluate |].
  apply (progress_only_moves_forward (H := Sample.substring) 3 "job1"
           Sample.resumed_world (snd Sample.resumed_run) Sample.resumed_job
           (fst Sample.resumed_run)).
  - evaluate.
  - apply pair_eta.
Defined.

(** C3, as stated, fails: the stream started on a DONE job writes the
    status PROCESSING before it writes DONE again. *)
Lemma done_job_leaves_done :
  exportJob Sample.done_world !! "job1" = Some Sample.done_job
  ∧ ExportJob.status Sample.done_job = "DONE"
  ∧ ExportJob.status
      <$> history "job1" Sample.done_job (trace (snd Sample.done_run))
    = ["PROCESSING"; "DONE"].
Proof. repeat split; evaluate. Qed.

Lemma done_job_is_reprocessed_witness :
  exportJob Sample.done_world !! "job1" = Some Sample.done_job
  ∧ ExportJob.status Sample.done_job = "DONE"
  ∧ ∃ tr job',
      trace (snd Sample.done_run) = trace Sample.done_world ++ tr
      ∧ head (history "job1" Sample.done_job tr)
        = Some (in_progress Sample.done_job 3 3)
      ∧ exportJob (snd Sample.done_run) !! "job1" = Some job'
      ∧ (ExportJob.status job' = "DONE" ∨ ExportJob.status job' = "FAILED")
      ∧ (∀ newId body o1 w1,
           @exportRoute.POST Sample.substring newId body Sample.done_world = (o1, w1) →
           exportJob w1 !! "job1" = Some Sample.done_job)
      ∧ (∀ o2 w2, statusRoute.GET "job1" Sample.done_world = (o2, w2) →
                  exportJob w2 = exportJob Sample.done_world).
Proof.
  split; [evaluate |]. split; [reflexivity |].
  apply (done_job_is_reprocessed (H := Sample.substring) "job1"
           Sample.done_world (snd Sample.done_run) Sample.done_job
           (fst Sample.done_run)).
  - evaluate.
  - reflexivity.
  - apply pair_eta.
Defined.

Lemma resume_ends_where_one_pass_ends_witness :
  exportJob Sample.mid_world !! "job1" = Some (Sample.fresh_job 1200)
  ∧ fst Sample.first_pass = Stopped
  ∧ ExportJob.lastCursor <$> exportJob (snd Sample.first_pass) !! "job1" = Some 1000
  ∧ exportJob (snd Sample.second_pass) = exportJob (snd Sample.one_pass)
  ∧ ExportJob.lastCursor <$> exportJob (snd Sample.second_pass) !! "job1"
    = ExportJob.lastCursor <$> exportJob (snd Sample.one_pass) !! "job1"
  ∧ ExportJob.rowsExported <$> exportJob (snd Sample.second_pass) !! "job1"
    = ExportJob.rowsExported <$> exportJob (snd Sample.one_pass) !! "job1".
Proof.
  split; [evaluate |]. split; [evaluate |]. split; [evaluate |].
  apply (resume_ends_where_one_pass_ends (H := Sample.substring) 1 "job1"
           Sample.mid_world (snd Sample.first_pass) (snd Sample.second_pass)
           (snd Sample.one_pass) (Sample.fresh_job 1200)
           (fst Sample.first_pass) (fst Sample.second_pass) (fst Sample.one_pass)).
  - evaluate.
  - apply pair_eta.
  - apply pair_eta.
  - apply pair_eta.
Defined.

Lemma csv_round_trip_witness :
  csvUtils.rowToCsvLine Sample.ultra_row = Ok Sample.ultra_line
  ∧ csvUtils.rowToCsvLine Sample.plain_row = Ok Sample.plain_line
  ∧ ∃ iso1 iso2,
      Js.toISOString (csvUtils.createdAt Sample.ultra_row) = Ok iso1
      ∧ Js.toISOString (csvUtils.createdAt Sample.plain_row) = Ok iso2
      ∧ Sample.ultra_line
        = (Js.join "," (Csv.rfc4180_field <$> Csv.fields Sample.ultra_row iso1)
           ++ str1 LF)%string
      ∧ Sample.plain_line
        = (Js.join "," (Csv.rfc4180_field <$> Csv.fields Sample.plain_row iso2)
           ++ str1 LF)%string
      ∧ Rfc4180.parseCsv
          (csvUtils.CSV_HEADER ++ Sample.ultra_line ++ Sample.plain_line)%string
        = Some [Csv.header_fields; Csv.fields Sample.ultra_row iso1;
                Csv.fields Sample.plain_row iso2]
      ∧ (∀ val, csvUtils.escapeCsv val = Csv.rfc4180_field val)
      ∧ csvUtils.escapeCsv Sample.ultra = Sample.ultra_quoted
      ∧ Rfc4180.parseCsv (Sample.ultra_quoted ++ str1 LF)%string = Some [[Sample.ultra]].
Proof.
  split; [evaluate |]. split; [evaluate |].
  apply (csv_round_trip Sample.ultra_row Sample.plain_row); evaluate.
Defined.

(** C6, as stated, fails: a write whose cursor is below the stored one
    is accepted and lowers the stored cursor. *)
Lemma update_accepts_lower_cursor :
  ExportJob.lastCursor Sample.far_job = 2000
  ∧ exportJob_update "job1" (progress_write 1000 1000) {[ "job1" := Sample.far_job ]}
    = Ok {[ "job1" := Sample.job Sample.no_filters "PROCESSING" 1000 1000 2500 ]}.
Proof.
  split; [reflexivity |].
  unfold exportJob_update. rewrite lookup_singleton_eq, insert_singleton_eq.
  reflexivity.
Qed.

Lemma empty_export_witness :
  exportJob Sample.books_world !! "job1" = Some Sample.books_job
  ∧ @count Sample.substring (streamRoute.where_of (ExportJob.filters Sample.books_job))
      (product Sample.books_world) = 0
  ∧ ∃ w' tr,
      @streamRoute.GET Sample.substring "job1" Sample.books_world = (Returned tt, w')
      ∧ trace w' = trace Sample.books_world ++ tr
      ∧ tr = [ JobFindUnique "job1" (Some Sample.books_job);
               JobUpdate "job1" (status_write "PROCESSING");
               Send csvUtils.CSV_HEADER;
               ProductFindMany
                 (chunk_query (streamRoute.where_of (ExportJob.filters Sample.books_job))
                    (ExportJob.lastCursor Sample.books_job)) [];
               JobUpdate "job1" (status_write "DONE");
               SendEvent "done" (DoneData (ExportJob.rowsExported Sample.books_job));
               Close ]
      ∧ length (fetches tr) = 1%nat
      ∧ messages tr = [csvUtils.CSV_HEADER]
      ∧ events tr = [("done", DoneData (ExportJob.rowsExported Sample.books_job))]
      ∧ ExportJob.status <$> exportJob w' !! "job1" = Some "DONE".
Proof.
  split; [evaluate |]. split; [evaluate |].
  apply (empty_export (H := Sample.substring) "job1" Sample.books_world Sample.books_job);
    evaluate.
Defined.

(** C8, as stated, fails: over 2,500 matching rows the stream makes four
    fetches, not three; the fourth returns no row and ends the loop. *)
Lemma four_fetches_for_2500_rows :
  exportJob Sample.big_world !! "job1" = Some (Sample.fresh_job 2500)
  ∧ @count Sample.substring (streamRoute.where_of Sample.no_filters)
      (product Sample.big_world) = 2500
  ∧ fst Sample.big_run = Returned tt
  ∧ fetch_sizes (trace (snd Sample.big_run)) = [1000; 1000; 500; 0]%nat
  ∧ length (fetches (trace (snd Sample.big_run))) ≠ 3%nat.
Proof. repeat split; try evaluate. vm_compute. discriminate. Qed.

Lemma export_in_chunks_witness :
  exportJob Sample.big_world !! "job1" = Some (Sample.fresh_job 2500)
  ∧ NoDup (csvUtils.id <$> product Sample.big_world)
  ∧ Forall (λ p, 0 < csvUtils.id p) (product Sample.big_world)
  ∧ Forall encodable (product Sample.big_world)
  ∧ @count Sample.substring (streamRoute.where_of Sample.no_filters)
      (product Sample.big_world) = Z.of_nat 2500
  ∧ ∃ w' tr job',
      @streamRoute.GET Sample.substring "job1" Sample.big_world = (Returned tt, w')
      ∧ trace w' = trace Sample.big_world ++ tr
      ∧ fetch_sizes tr = fetch_plan 2500
      ∧ S (length (advances tr)) = length (fetch_plan 2500)
      ∧ exportJob w' !! "job1" = Some job'
      ∧ ExportJob.rowsExported job' = Z.of_nat 2500
      ∧ ExportJob.status job' = "DONE"
      ∧ fetch_plan 2500 = [1000; 1000; 500; 0]%nat
      ∧ fetch_plan 1000 = [1000; 0]%nat.
Proof.
  pose proof (sample_rows_key 2500) as Hkey.
  pose proof (sample_rows_positive 2500) as Hpos.
  pose proof (sample_rows_encodable 2500) as Henc.
  split; [evaluate |]. split; [exact Hkey |]. split; [exact Hpos |].
  split; [exact Henc |]. split; [evaluate |].
  apply (export_in_chunks (H := Sample.substring) "job1" Sample.big_world
           (Sample.fresh_job 2500) 2500); try assumption; evaluate.
Defined.

Lemma creation_counts_what_the_stream_scans_witness :
  Sample.creation = (Returned ("job2", 3), snd Sample.creation)
  ∧ ∃ job,
      exportJob (snd Sample.creation) !! "job2" = Some job
      ∧ product (snd Sample.creation) = product Sample.jobless_world
      ∧ ExportJob.totalRows job = 3
      ∧ 3 = @count Sample.substring (exportRoute.where_of (ExportJob.filters job))
              (product Sample.jobless_world)
      ∧ streamRoute.where_of (ExportJob.filters job)
        = exportRoute.where_of (ExportJob.filters job)
      ∧ Where.category (exportRoute.where_of (ExportJob.filters job))
        = (if exportRoute.truthy (Filters.category (ExportJob.filters job))
           then Some (Filters.category (ExportJob.filters job)) else None)
      ∧ Where.status (exportRoute.where_of (ExportJob.filters job))
        = (if exportRoute.truthy (Filters.status (ExportJob.filters job))
           then Some (Filters.status (ExportJob.filters job)) else None)
      ∧ Where.name_contains (exportRoute.where_of (ExportJob.filters job))
        = (if exportRoute.truthy (Filters.search (ExportJob.filters job))
           then Some (Filters.search (ExportJob.filters job)) else None)
      ∧ ∀ turns o w2,
          @streamRoute.start Sample.substring turns "job2" (snd Sample.creation) = (o, w2) →
          ∃ tr,
            trace w2 = trace (snd Sample.creation) ++ tr
            ∧ Forall (λ f, ∃ c,
                        fst f = chunk_query (exportRoute.where_of (ExportJob.filters job)) c
                        ∧ snd f = @findMany Sample.substring (fst f)
                                    (product Sample.jobless_world))
                (fetches tr).
Proof.
  split; [evaluate |].
  apply (creation_counts_what_the_stream_scans (H := Sample.substring) "job2"
           Sample.toys_body Sample.jobless_world (snd Sample.creation) "job2" 3).
  evaluate.
Defined.

Lemma blank_filter_is_no_filter_witness :
  exportJob Sample.jobless_world !! "job2" = None
  ∧ ∃ job w1 wh,
      @exportRoute.POST Sample.substring "job2" Sample.empty_body Sample.jobless_world
      = (Returned ("job2", ExportJob.totalRows job), w1)
      ∧ exportJob w1 !! "job2" = Some job
      ∧ trace w1 = trace Sample.jobless_world
                   ++ [ProductCount wh (ExportJob.totalRows job); JobCreate job]
      ∧ ExportJob.totalRows job = @count Sample.substring wh (product Sample.jobless_world)
      ∧ (blank (exportRoute.category Sample.empty_body) → Where.category wh = None)
      ∧ (blank (exportRoute.status Sample.empty_body) → Where.status wh = None)
      ∧ (blank (exportRoute.search Sample.empty_body) → Where.name_contains wh = None)
      ∧ (blank (exportRoute.category Sample.empty_body) →
         blank (exportRoute.status Sample.empty_body) →
         blank (exportRoute.search Sample.empty_body) →
         ExportJob.totalRows job = Z.of_nat (length (product Sample.jobless_world))).
Proof.
  split; [evaluate |].
  apply (blank_filter_is_no_filter (H := Sample.substring) "job2" Sample.empty_body
           Sample.jobless_world).
  evaluate.
Defined.


(** * More about the queries and the runs *)

Section ScanFacts.
Context `{DataSource}.
Import LoopSpec Observe.

Implicit Types (table rows : list csvUtils.ProductRow) (p q : csvUtils.ProductRow)
  (wh : Where.t) (c : Z).

(** In a table with a primary key a row is known by its key. *)
Lemma key_inj table p q :
  NoDup (csvUtils.id <$> table) → p ∈ table → q ∈ table →
  csvUtils.id p = csvUtils.id q → p = q.
Proof.
  intros Hkey Hp Hq Heq.
  apply list_elem_of_lookup in Hp as [i Hi]. apply list_elem_of_lookup in Hq as [j Hj].
  assert (i = j) as ->.
  { apply (NoDup_lookup (csvUtils.id <$> table) i j (csvUtils.id p) Hkey).
    - now rewrite list_lookup_fmap, Hi.
    - now rewrite list_lookup_fmap, Hj, Heq. }
  congruence.
Qed.

Lemma scan_key table wh c :
  NoDup (csvUtils.id <$> table) → NoDup (csvUtils.id <$> scan table wh c).
Proof.
  intros Hkey. rewrite scan_Permutation.
  eapply sublist_NoDup; [exact Hkey |]. apply fmap_sublist, sublist_filter.
Qed.

(** Ascending and without a repeated key: strictly ascending. *)
Lemma sorted_strict rows :
  StronglySorted id_le rows → NoDup (csvUtils.id <$> rows) →
  StronglySorted id_lt rows.
Proof.
  induction 1 as [|p rows Hsorted IH Hall]; intros Hkey; [constructor |].
  rewrite fmap_cons in Hkey. apply NoDup_cons in Hkey as [Hnot Hkey].
  constructor; [auto |].
  apply Forall_forall. intros q Hq.
  pose proof (proj1 (Forall_forall _ _) Hall q Hq) as Hle.
  unfold id_le in Hle. unfold id_lt.
  assert (csvUtils.id p ≠ csvUtils.id q); [|lia].
  intros Heq. apply Hnot. rewrite Heq. apply list_elem_of_fmap. eauto.
Qed.

(** The scan from the last row of a chunk is the scan from the cursor
    without that chunk. *)
Lemma scan_after_chunk table wh c p :
  NoDup (csvUtils.id <$> table) →
  last (findMany (chunk_query wh c) table) = Some p →
  scan table wh (csvUtils.id p) = drop streamRoute.CHUNK_SIZE (scan table wh c).
Proof.
  intros Hkey Hlast. rewrite findMany_chunk in Hlast.
  set (S := scan table wh c) in *. set (k := streamRoute.CHUNK_SIZE) in *.
  assert (HS : StronglySorted id_le (take k S ++ drop k S))
    by (rewrite take_drop; apply scan_sorted).
  assert (HkeyS : NoDup (csvUtils.id <$> (take k S ++ drop k S)))
    by (rewrite take_drop; now apply scan_key).
  assert (Hm : matches (Where.with_id_gt wh c) p).
  { apply (scan_elem table). rewrite <- (take_drop k (scan table wh c)).
    apply elem_of_app. left. now apply last_Some_elem_of. }
  destruct (proj1 (last_Some _ _) Hlast) as [l1 Hl1].
  assert (Hdrop : filter (λ x, csvUtils.id p < csvUtils.id x) S = drop k S).
  { rewrite <- (take_drop k S) at 1. rewrite filter_app.
    rewrite Hl1 in HS, HkeyS.
    rewrite (filter_none _ (take k S)), (filter_all _ (drop k S)); [reflexivity | |].
    - apply Forall_forall. intros x Hx.
      assert (Hle : id_le p x).
      { apply (StronglySorted_app_1_elem_of id_le _ _ p x HS); [|exact Hx].
        apply elem_of_app. right. now apply list_elem_of_singleton. }
      unfold id_le in Hle.
      assert (csvUtils.id p ≠ csvUtils.id x); [|lia].
      rewrite fmap_app in HkeyS. apply NoDup_app in HkeyS as (_ & Hdisj & _).
      intros Heq. apply (Hdisj (csvUtils.id p)).
      + apply list_elem_of_fmap. exists p. split; [reflexivity |].
        apply elem_of_app. right. now apply list_elem_of_singleton.
      + rewrite Heq. apply list_elem_of_fmap. now exists x.
    - rewrite Hl1. apply Forall_forall. intros x Hx.
      apply elem_of_app in Hx as [Hx | Hx].
      + apply StronglySorted_app_1_l in HS.
        assert (Hle : id_le x p).
        { apply (StronglySorted_app_1_elem_of id_le _ _ x p HS Hx).
          now apply list_elem_of_singleton. }
        unfold id_le in Hle. lia.
      + apply list_elem_of_singleton in Hx as ->. lia. }
  rewrite <- Hdrop.
  apply (StronglySorted_unique_strong id_le).
  - intros x1 x2 Hx1 Hx2 H12 H21. unfold id_le in *.
    apply (key_inj table); [exact Hkey | | | lia].
    + now apply scan_elem in Hx1 as [_ Hx1].
    + apply list_elem_of_filter in Hx2 as [_ Hx2].
      now apply scan_elem in Hx2 as [_ Hx2].
  - apply scan_sorted.
  - rewrite Hdrop. eapply StronglySorted_app_1_r. rewrite take_drop. apply scan_sorted.
  - unfold S. rewrite !scan_Permutation, list_filter_filter.
    erewrite list_filter_iff; [reflexivity |]. intros x. split.
    + intros Hx. split; [now apply matches_bound in Hx |].
      apply (matches_rebound wh (csvUtils.id p)); [exact Hx |].
      apply matches_bound in Hx, Hm. lia.
    + intros [Hlt Hx]. now apply (matches_rebound wh c).
Qed.

Lemma scan_nil table wh c :
  findMany (chunk_query wh c) table = [] → scan table wh c = [].
Proof.
  intros Hnil. apply chunk_nil in Hnil. apply length_zero_iff_nil.
  now rewrite scan_length.
Qed.

(** What [encode] does to two lists of rows put end to end. *)
Lemma encode_app rows1 rows2 csv1 csv2 :
  streamRoute.encode rows1 = Ok csv1 → streamRoute.encode rows2 = Ok csv2 →
  streamRoute.encode (rows1 ++ rows2) = Ok (csv1 ++ csv2)%string.
Proof.
  revert csv1. induction rows1 as [|p rows1 IH]; intros csv1.
  - intros [= <-] H2. exact H2.
  - cbn [streamRoute.encode app]. destruct (csvUtils.rowToCsvLine p) as [line|]; [|discriminate].
    destruct (streamRoute.encode rows1) as [rest|] eqn:Hrest; [|discriminate].
    intros [= <-] H2. rewrite (IH rest eq_refl H2). now rewrite append_assoc.
Qed.

Lemma encode_ok_iff rows :
  (∃ csv, streamRoute.encode rows = Ok csv) ↔ Forall encodable rows.
Proof.
  split.
  - induction rows as [|p rows IH]; [constructor |].
    cbn [streamRoute.encode]. intros [csv Hcsv].
    destruct (csvUtils.rowToCsvLine p) as [line|] eqn:Hline; [|discriminate].
    destruct (streamRoute.encode rows) as [rest|]; [|discriminate].
    constructor; [|eauto].
    unfold encodable. intros Hbad. unfold csvUtils.rowToCsvLine in Hline.
    now rewrite Hbad in Hline.
  - apply encode_encodable.
Qed.
End ScanFacts.

Section TraceFacts.
Context `{DataSource}.
Import LoopSpec Observe.
Variables (table : list csvUtils.ProductRow) (jobId : string) (total : Z)
  (wh : Where.t).

Implicit Types (tr : list Effect) (c r : Z) (e : End).

Abbreviation run := (run table jobId total wh).

Lemma since_app (w w' : World) tr : trace w' = trace w ++ tr → since w w' = tr.
Proof. unfold since. intros ->. apply drop_app_length. Qed.

Lemma messages_app tr1 tr2 : messages (tr1 ++ tr2) = messages tr1 ++ messages tr2.
Proof. apply omap_app. Qed.

Lemma events_app tr1 tr2 : events (tr1 ++ tr2) = events tr1 ++ events tr2.
Proof. apply omap_app. Qed.

Lemma progress_events_app tr1 tr2 :
  progress_events (tr1 ++ tr2) = progress_events tr1 ++ progress_events tr2.
Proof. apply omap_app. Qed.

Lemma fetched_rows_app tr1 tr2 :
  fetched_rows (tr1 ++ tr2) = fetched_rows tr1 ++ fetched_rows tr2.
Proof. unfold fetched_rows. now rewrite fetches_app, fmap_app, concat_app. Qed.

Lemma text_app parts1 parts2 :
  text (parts1 ++ parts2) = (text parts1 ++ text parts2)%string.
Proof.
  induction parts1 as [|s parts1 IH]; [reflexivity |].
  cbn [app text foldr]. fold (text (parts1 ++ parts2)). fold (text parts1).
  now rewrite IH, append_assoc.
Qed.

(** The messages, events and advances of a run go together: one
    message, one advance and one [progress] event per chunk, the event
    carrying the count just written. *)
Lemma run_reports n c r tr e c' r' :
  run n c r tr e c' r' →
  length (messages tr) = length (advances tr)
  ∧ progress_events tr = (λ a, (snd a, total)) <$> advances tr
  ∧ events tr = (λ a, ("progress"%string, ProgressData (snd a) total)) <$> advances tr.
Proof.
  induction 1 as [c r | n c r Hnil | n c r rows err Hrows Hne Henc
                 | n c r rows csv p tr e c' r' Hrows Henc Hlast Hrun IH];
    try (repeat split; reflexivity).
  destruct IH as (IHm & IHp & IHe).
  unfold messages, progress_events, events, advances in *. cbn.
  rewrite IHm, IHp, IHe. repeat split.
Qed.

(** Every fetched row is a row of the table that matches the [where]
    and lies beyond the cursor the run started from. *)
Lemma run_rows_match n c r tr e c' r' :
  run n c r tr e c' r' →
  Forall (λ p, p ∈ table ∧ matches (Where.with_id_gt wh c) p) (fetched_rows tr).
Proof.
  induction 1 as [c r | n c r Hnil | n c r rows err Hrows Hne Henc
                 | n c r rows csv p tr e c' r' Hrows Henc Hlast Hrun IH].
  - constructor.
  - constructor.
  - unfold fetched_rows. cbn. rewrite app_nil_r. subst rows.
    apply Forall_forall. intros q Hq. now apply chunk_elem in Hq as [? ?].
  - change (fetched_rows _) with (rows ++ fetched_rows tr).
    apply Forall_app. split.
    + subst rows. apply Forall_forall. intros q Hq.
      now apply chunk_elem in Hq as [? ?].
    + eapply Forall_impl; [exact IH |]. cbn. intros q [Hq Hm]. split; [exact Hq |].
      apply (matches_rebound wh (csvUtils.id p)); [exact Hm |].
      subst rows. apply last_Some_elem_of, chunk_elem in Hlast as [Hp _].
      apply matches_bound in Hp, Hm. lia.
Qed.

(** Across the chunks of a run the keys only go up. *)
Lemma run_rows_sorted n c r tr e c' r' :
  run n c r tr e c' r' → StronglySorted id_le (fetched_rows tr).
Proof.
  induction 1 as [c r | n c r Hnil | n c r rows err Hrows Hne Henc
                 | n c r rows csv p tr e c' r' Hrows Henc Hlast Hrun IH].
  - constructor.
  - constructor.
  - unfold fetched_rows. cbn. rewrite app_nil_r. subst rows. apply chunk_sorted.
  - change (fetched_rows _) with (rows ++ fetched_rows tr).
    apply StronglySorted_app_2; [|subst rows; apply chunk_sorted | exact IH].
    intros x1 x2 Hx1 Hx2.
    pose proof (run_rows_match _ _ _ _ _ _ _ Hrun) as Hall.
    apply (proj1 (Forall_forall _ _) Hall) in Hx2 as [_ Hx2].
    apply matches_bound in Hx2.
    destruct (proj1 (last_Some _ _) Hlast) as [l1 Hl1].
    assert (Hle : id_le x1 p).
    { pose proof (chunk_sorted table wh c) as Hs. rewrite Hrows, Hl1 in Hs.
      rewrite Hl1 in Hx1. apply elem_of_app in Hx1 as [Hx1 | Hx1].
      - apply (StronglySorted_app_1_elem_of id_le _ _ x1 p Hs Hx1).
        now apply list_elem_of_singleton.
      - apply list_elem_of_singleton in Hx1 as ->. unfold id_le. lia. }
    unfold id_le in *. lia.
Qed.

(** With a primary key no key comes twice, within a chunk or across
    chunks. *)
Lemma run_rows_strict n c r tr e c' r' :
  NoDup (csvUtils.id <$> table) →
  run n c r tr e c' r' → StronglySorted id_lt (fetched_rows tr).
Proof.
  intros Hkey.
  assert (Hchunk : ∀ c0, StronglySorted id_lt (findMany (chunk_query wh c0) table)).
  { intros c0. apply sorted_strict; [apply chunk_sorted |].
    rewrite findMany_chunk. eapply sublist_NoDup; [apply (scan_key table wh c0 Hkey) |].
    apply fmap_sublist, sublist_take. }
  induction 1 as [c r | n c r Hnil | n c r rows err Hrows Hne Henc
                 | n c r rows csv p tr e c' r' Hrows Henc Hlast Hrun IH].
  - constructor.
  - constructor.
  - unfold fetched_rows. cbn. rewrite app_nil_r. subst rows. apply Hchunk.
  - change (fetched_rows _) with (rows ++ fetched_rows tr).
    apply StronglySorted_app_2; [|subst rows; apply Hchunk | exact IH].
    intros x1 x2 Hx1 Hx2.
    pose proof (run_rows_match _ _ _ _ _ _ _ Hrun) as Hall.
    apply (proj1 (Forall_forall _ _) Hall) in Hx2 as [_ Hx2].
    apply matches_bound in Hx2.
    destruct (proj1 (last_Some _ _) Hlast) as [l1 Hl1].
    assert (Hle : id_le x1 p).
    { pose proof (chunk_sorted table wh c) as Hs. rewrite Hrows, Hl1 in Hs.
      rewrite Hl1 in Hx1. apply elem_of_app in Hx1 as [Hx1 | Hx1].
      - apply (StronglySorted_app_1_elem_of id_le _ _ x1 p Hs Hx1).
        now apply list_elem_of_singleton.
      - apply list_elem_of_singleton in Hx1 as ->. unfold id_le. lia. }
    unfold id_le, id_lt in *. lia.
Qed.

(** A run that ends on the empty fetch has sent every row it fetched. *)
Lemma run_sent n c r tr c' r' :
  run n c r tr Break c' r' →
  streamRoute.encode (fetched_rows tr) = Ok (text (messages tr)).
Proof.
  remember Break as e eqn:He.
  induction 1 as [c r | n c r Hnil | n c r rows err Hrows Hne Henc
                 | n c r rows csv p tr e c' r' Hrows Henc Hlast Hrun IH];
    try discriminate.
  - reflexivity.
  - change (fetched_rows _) with (rows ++ fetched_rows tr).
    change (messages _) with (csv :: messages tr).
    cbn [text foldr]. fold (text (messages tr)). apply encode_app; auto.
Qed.

(** With a primary key, a run that ends on the empty fetch has fetched
    the whole scan. *)
Lemma run_rows_complete n c r tr c' r' :
  NoDup (csvUtils.id <$> table) →
  run n c r tr Break c' r' →
  fetched_rows tr = scan table wh c.
Proof.
  intros Hkey. remember Break as e eqn:He.
  induction 1 as [c r | n c r Hnil | n c r rows err Hrows Hne Henc
                 | n c r rows csv p tr e c' r' Hrows Henc Hlast Hrun IH];
    try discriminate.
  - now rewrite scan_nil.
  - change (fetched_rows _) with (rows ++ fetched_rows tr).
    rewrite (IH He). subst rows.
    rewrite (scan_after_chunk table wh c p Hkey Hlast), findMany_chunk.
    apply take_drop.
Qed.

(** A run cut short, continued from where it stopped. *)
Lemma run_cut_resume k c r tr1 c1 r1 :
  run k c r tr1 Cut c1 r1 →
  ∀ n tr2 e2 c2 r2, run n c1 r1 tr2 e2 c2 r2 →
  run (k + n) c r (tr1 ++ tr2) e2 c2 r2.
Proof.
  remember Cut as e eqn:He.
  induction 1 as [c r | k c r Hnil | k c r rows err Hrows Hne Henc
                 | k c r rows csv p tr1 e1 c1 r1 Hrows Henc Hlast Hrun IH];
    try discriminate; intros n tr2 e2 c2 r2 Hrun2.
  - exact Hrun2.
  - cbn [Nat.add app]. eapply run_chunk; eauto.
Qed.
End TraceFacts.


(** * Further properties of the handlers *)

Section MoreProperties.
Context `{DataSource}.
Import LoopSpec Observe.

Lemma final_status_done e : final_status e = "DONE" → e = Break.
Proof. destruct e; cbn; congruence. Qed.

Lemma messages_start jobId job tr e r' :
  messages (prologue jobId job ++ tr ++ epilogue jobId e r')
  = csvUtils.CSV_HEADER :: messages tr.
Proof.
  rewrite !messages_app. change (messages (prologue jobId job)) with [csvUtils.CSV_HEADER].
  replace (messages (epilogue jobId e r')) with (@nil string) by now destruct e.
  now rewrite app_nil_r.
Qed.

Lemma advances_start jobId job tr e r' :
  advances (prologue jobId job ++ tr ++ epilogue jobId e r') = advances tr.
Proof.
  rewrite !advances_app, advances_epilogue, app_nil_r. reflexivity.
Qed.

Lemma fetched_rows_start jobId job tr e r' :
  fetched_rows (prologue jobId job ++ tr ++ epilogue jobId e r') = fetched_rows tr.
Proof.
  rewrite !fetched_rows_app.
  replace (fetched_rows (epilogue jobId e r')) with (@nil csvUtils.ProductRow)
    by now destruct e.
  now rewrite app_nil_r.
Qed.

Lemma progress_events_start jobId job tr e r' :
  progress_events (prologue jobId job ++ tr ++ epilogue jobId e r')
  = progress_events tr.
Proof.
  rewrite !progress_events_app.
  replace (progress_events (epilogue jobId e r')) with (@nil (Z * Z))
    by now destruct e.
  now rewrite app_nil_r.
Qed.

(** X1.  Asked for a job that does not exist, the stream looks the job
    up, sends one [error] event, [Job not found], and closes; the
    [finally] block then calls [controller.close()] a second time.  It
    sends no message, makes no fetch, and leaves the two tables as they
    were. *)
Theorem stream_of_unknown_job (jobId : string) (w : World) :
  exportJob w !! jobId = None →
  ∃ o w',
    streamRoute.GET jobId w = (o, w')
    ∧ product w' = product w
    ∧ exportJob w' = exportJob w
    ∧ since w w' = [ JobFindUnique jobId None;
                     SendEvent "error" (ErrorData "Job not found");
                     Close; Close ]
    ∧ events (since w w') = [("error", ErrorData "Job not found")]
    ∧ messages (since w w') = []
    ∧ fetches (since w w') = [].
Proof.
  intros Hjob. unfold streamRoute.GET. rewrite (start_missing _ _ _ Hjob).
  eexists _, _. split; [reflexivity |]. cbn [product exportJob].
  unfold since. cbn [trace]. rewrite drop_app_length. repeat split.
Qed.

(** X2.  A run of the stream on an existing job always returns, and it
    ends with exactly one verdict, sent after all the [progress] events
    and before the stream is closed: [done] with the stored
    [rowsExported] when the job is left DONE, [error] when it is left
    FAILED; no other status is left behind. *)
Theorem stream_ends_with_one_verdict (jobId : string) (w w' : World)
    (job : ExportJob.t) (o : Outcome unit) :
  exportJob w !! jobId = Some job →
  streamRoute.GET jobId w = (o, w') →
  ∃ job' verdict,
    o = Returned tt
    ∧ exportJob w' !! jobId = Some job'
    ∧ events (since w w')
      = ((λ a, ("progress", ProgressData (snd a) (ExportJob.totalRows job)))
           <$> advances (since w w')) ++ [verdict]
    ∧ last (since w w') = Some Close
    ∧ ((ExportJob.status job' = "DONE"
        ∧ verdict = ("done", DoneData (ExportJob.rowsExported job')))
       ∨ (ExportJob.status job' = "FAILED"
          ∧ ∃ err, verdict = ("error", ErrorData err))).
Proof.
  intros Hjob Hget.
  destruct (GET_inv _ _ _ _ _ Hjob Hget)
    as (tr & e & c' & r' & Hrun & He & -> & _ & Hjobs & Htrace).
  rewrite (since_app _ _ _ Htrace).
  destruct (run_reports _ _ _ _ _ _ _ _ _ _ _ Hrun) as (_ & _ & Hev).
  exists (final_job job e c' r').
  exists (match e with
          | Fails err => ("error", ErrorData err)
          | _ => ("done", DoneData r')
          end).
  split; [reflexivity |]. split; [now rewrite Hjobs, lookup_insert_eq |].
  rewrite advances_start, !events_app, Hev.
  change (events (prologue jobId job)) with (@nil (string * Payload)).
  cbn [app].
  destruct e as [|err|]; [| |congruence].
  - repeat split.
    + cbn [epilogue].
      change [JobUpdate jobId (status_write "DONE"); SendEvent "done" (DoneData r'); Close]
        with ([JobUpdate jobId (status_write "DONE"); SendEvent "done" (DoneData r')]
              ++ [Close]).
      rewrite !app_assoc. apply last_snoc.
    + left. split; reflexivity.
  - repeat split.
    + cbn [epilogue].
      change [JobUpdate jobId (status_write "FAILED"); SendEvent "error" (ErrorData err);
              Close]
        with ([JobUpdate jobId (status_write "FAILED"); SendEvent "error" (ErrorData err)]
              ++ [Close]).
      rewrite !app_assoc. apply last_snoc.
    + right. split; [reflexivity | eauto].
Qed.

(** X3.  In every run of the stream, complete or cut short, the first
    message is the header, also on a resume; after it comes one message
    per cursor advance, and each [progress] event carries the
    [rowsExported] just written and the [totalRows] read at the start. *)
Theorem every_chunk_sent_is_persisted (turns : nat) (jobId : string) (w w' : World)
    (job : ExportJob.t) (o : Outcome unit) :
  exportJob w !! jobId = Some job →
  streamRoute.start turns jobId w = (o, w') →
  ∃ chunks,
    messages (since w w') = csvUtils.CSV_HEADER :: chunks
    ∧ length chunks = length (advances (since w w'))
    ∧ progress_events (since w w')
      = (λ a, (snd a, ExportJob.totalRows job)) <$> advances (since w w').
Proof.
  intros Hjob Hstart.
  destruct (start_inv _ _ _ _ _ _ Hjob Hstart)
    as (tr & e & c' & r' & Hrun & _ & _ & _ & Htrace).
  rewrite (since_app _ _ _ Htrace).
  destruct (run_reports _ _ _ _ _ _ _ _ _ _ _ Hrun) as (Hlen & Hprog & _).
  exists (messages tr).
  rewrite messages_start, advances_start, progress_events_start. auto.
Qed.

(** X4.  In every run of the stream, complete or cut short, each row
    fetched is a row of the table that matches the filters of the job
    and has a key above the cursor the run started from; the rows come
    in ascending order of key across all chunks, and with a primary key
    no row comes twice. *)
Theorem fetched_rows_are_right (turns : nat) (jobId : string) (w w' : World)
    (job : ExportJob.t) (o : Outcome unit) :
  exportJob w !! jobId = Some job →
  streamRoute.start turns jobId w = (o, w') →
  Forall (λ p, p ∈ product w
               ∧ matches (streamRoute.where_of (ExportJob.filters job)) p
               ∧ ExportJob.lastCursor job < csvUtils.id p)
    (fetched_rows (since w w'))
  ∧ StronglySorted id_le (fetched_rows (since w w'))
  ∧ (NoDup (csvUtils.id <$> product w) →
     StronglySorted id_lt (fetched_rows (since w w'))
     ∧ NoDup (fetched_rows (since w w'))).
Proof.
  intros Hjob Hstart.
  destruct (start_inv _ _ _ _ _ _ Hjob Hstart)
    as (tr & e & c' & r' & Hrun & _ & _ & _ & Htrace).
  rewrite (since_app _ _ _ Htrace), fetched_rows_start.
  split; [|split].
  - eapply Forall_impl; [apply (run_rows_match _ _ _ _ _ _ _ _ _ _ _ Hrun) |].
    cbn. intros p [Hp Hm]. split; [exact Hp |].
    now apply matches_unbound in Hm; [|apply where_of_unbound].
  - apply (run_rows_sorted _ _ _ _ _ _ _ _ _ _ _ Hrun).
  - intros Hkey.
    pose proof (run_rows_strict _ _ _ _ _ _ _ _ _ _ _ Hkey Hrun) as Hstrict.
    split; [exact Hstrict |].
    clear -Hstrict. induction Hstrict as [|p rows _ IH Hall]; constructor; auto.
    intros Hin. apply (proj1 (Forall_forall _ _) Hall) in Hin.
    unfold id_lt in Hin. lia.
Qed.

(** X5.  Over a table with a primary key, a run of the stream that
    leaves the job DONE has fetched exactly the rows that match the
    filters beyond the starting cursor, each once, in ascending order
    of key, and the text of its messages is the header followed by the
    lines of these rows. *)
Theorem complete_export_is_the_scan (jobId : string) (w w' : World)
    (job : ExportJob.t) (o : Outcome unit) :
  exportJob w !! jobId = Some job →
  NoDup (csvUtils.id <$> product w) →
  streamRoute.GET jobId w = (o, w') →
  ExportJob.status <$> exportJob w' !! jobId = Some "DONE" →
  fetched_rows (since w w')
  = merge_sort id_le
      (filter (matches (Where.with_id_gt (streamRoute.where_of (ExportJob.filters job))
                          (ExportJob.lastCursor job))) (product w))
  ∧ fetched_rows (since w w')
    ≡ₚ filter (λ p, matches (streamRoute.where_of (ExportJob.filters job)) p
                    ∧ ExportJob.lastCursor job < csvUtils.id p) (product w)
  ∧ ∃ csv,
      streamRoute.encode (fetched_rows (since w w')) = Ok csv
      ∧ text (messages (since w w')) = (csvUtils.CSV_HEADER ++ csv)%string.
Proof.
  intros Hjob Hkey Hget Hdone.
  destruct (GET_inv _ _ _ _ _ Hjob Hget)
    as (tr & e & c' & r' & Hrun & He & -> & _ & Hjobs & Htrace).
  rewrite Hjobs, lookup_insert_eq in Hdone. cbn in Hdone.
  assert (e = Break) as -> by (apply final_status_done; congruence).
  rewrite (since_app _ _ _ Htrace), fetched_rows_start, messages_start.
  pose proof (run_rows_complete _ _ _ _ _ _ _ _ _ _ Hkey Hrun) as Hrows.
  split; [exact Hrows |]. split.
  - rewrite Hrows, scan_Permutation. erewrite list_filter_iff; [reflexivity |].
    intros p. apply matches_unbound, where_of_unbound.
  - exists (text (messages tr)). split; [|reflexivity].
    apply (run_sent _ _ _ _ _ _ _ _ _ _ Hrun).
Qed.

(** X7.  A job created by [POST] and then streamed to the end over the
    same table (keys distinct and positive, every row encodable) is
    left DONE with [rowsExported] equal to the [totalRows] counted at
    its creation, and the [done] event reports that number. *)
Theorem created_job_exports_its_total (newId : string) (body : exportRoute.Body)
    (w w1 : World) (jid : string) (total : Z) :
  exportRoute.POST newId body w = (Returned (jid, total), w1) →
  NoDup (csvUtils.id <$> product w) →
  Forall (λ p, 0 < csvUtils.id p) (product w) →
  Forall encodable (product w) →
  ∃ w2 job',
    streamRoute.GET jid w1 = (Returned tt, w2)
    ∧ exportJob w2 !! jid = Some job'
    ∧ ExportJob.status job' = "DONE"
    ∧ ExportJob.rowsExported job' = total
    ∧ ExportJob.totalRows job' = total
    ∧ last (events (since w1 w2)) = Some ("done", DoneData total).
Proof.
  intros Hpost Hkey Hpos Henc.
  destruct (POST_inv _ _ _ _ _ _ Hpost) as (-> & Htotal & Hprod & Hjob).
  destruct (streamRoute.GET newId w1) as [o w2] eqn:Hget.
  destruct (GET_inv _ _ _ _ _ Hjob Hget)
    as (tr & e & c' & r' & Hrun & He & -> & _ & Hjobs & Htrace).
  cbn [ExportJob.filters ExportJob.lastCursor ExportJob.rowsExported
         ExportJob.totalRows] in Hrun.
  rewrite Hprod in Hrun.
  assert (e = Break) as ->.
  { eapply run_breaks; [exact Henc | exact Hrun |].
    unfold streamRoute.enough. rewrite Hprod.
    match goal with
    | |- (ahead ?t ?wh ?c < _)%nat => pose proof (ahead_le_table t wh c)
    end. lia. }
  destruct (run_plan _ _ _ _ Hkey _ _ _ _ _ _ Hrun) as (_ & _ & Hr).
  assert (r' = total) as ->.
  { rewrite Hr, Htotal.
    rewrite (ahead_all (product w) _ 0 Hpos). reflexivity. }
  exists w2. eexists. split; [reflexivity |].
  split; [now rewrite Hjobs, lookup_insert_eq |].
  cbn [final_job ExportJob.status ExportJob.rowsExported ExportJob.totalRows
         final_status].
  repeat split.
  rewrite (since_app _ _ _ Htrace), !events_app. cbn [epilogue].
  change (events [JobUpdate newId (status_write "DONE");
                  SendEvent "done" (DoneData total); Close])
    with [("done", DoneData total)].
  rewrite !app_assoc. apply last_snoc.
Qed.

(** X8.  A run of the stream, complete or cut short, changes nothing but
    the row of its own job: the product table and the rows of all other
    jobs are as before, no job appears or disappears, and in its own row
    [id], [filters] and [totalRows] keep their values. *)
Theorem stream_touches_one_row (turns : nat) (jobId : string) (w w' : World)
    (o : Outcome unit) :
  streamRoute.start turns jobId w = (o, w') →
  product w' = product w
  ∧ (∀ other, other ≠ jobId → exportJob w' !! other = exportJob w !! other)
  ∧ match exportJob w !! jobId with
    | None => exportJob w' !! jobId = None
    | Some job =>
        ∃ job', exportJob w' !! jobId = Some job'
                ∧ ExportJob.id job' = ExportJob.id job
                ∧ ExportJob.filters job' = ExportJob.filters job
                ∧ ExportJob.totalRows job' = ExportJob.totalRows job
    end.
Proof.
  intros Hstart. destruct (exportJob w !! jobId) as [job|] eqn:Hjob.
  - destruct (start_inv _ _ _ _ _ _ Hjob Hstart)
      as (tr & e & c' & r' & _ & _ & Hprod & Hjobs & _).
    split; [exact Hprod |]. split.
    + intros other Hne. rewrite Hjobs. now apply lookup_insert_ne.
    + exists (final_job job e c' r'). rewrite Hjobs, lookup_insert_eq. auto.
  - rewrite (start_missing _ _ _ Hjob) in Hstart. injection Hstart as <- <-.
    cbn [product exportJob]. auto.
Qed.

(** X9.  When a first pass is cut short after some turns of the loop and
    a second pass resumes from the stored row, the two passes together
    send, after their headers, the very messages that a single complete
    pass sends after its header, and fetch the same rows in the same
    order: nothing is skipped and nothing is sent again. *)
Theorem resume_sends_the_rest (k : nat) (jobId : string) (w w1 w2 w' : World)
    (job : ExportJob.t) (o2 o : Outcome unit) :
  exportJob w !! jobId = Some job →
  streamRoute.start k jobId w = (Stopped, w1) →
  streamRoute.GET jobId w1 = (o2, w2) →
  streamRoute.GET jobId w = (o, w') →
  tail (messages (since w w1)) ++ tail (messages (since w1 w2))
  = tail (messages (since w w'))
  ∧ fetched_rows (since w w1) ++ fetched_rows (since w1 w2)
    = fetched_rows (since w w')
  ∧ advances (since w w1) ++ advances (since w1 w2) = advances (since w w').
Proof.
  intros Hjob Hfirst Hsecond Hone.
  destruct (start_inv _ _ _ _ _ _ Hjob Hfirst)
    as (tr1 & e1 & c1 & r1 & Hrun1 & Ho1 & Hprod1 & Hjobs1 & Htrace1).
  assert (e1 = Cut) as -> by (destruct e1; cbn in Ho1; congruence).
  assert (Hjob1 : exportJob w1 !! jobId = Some (final_job job Cut c1 r1))
    by now rewrite Hjobs1, lookup_insert_eq.
  destruct (GET_inv _ _ _ _ _ Hjob1 Hsecond)
    as (tr2 & e2 & c2 & r2 & Hrun2 & He2 & _ & _ & _ & Htrace2).
  destruct (GET_inv _ _ _ _ _ Hjob Hone)
    as (tr & e & c' & r' & Hrun & He & _ & _ & _ & Htrace).
  cbn [final_job ExportJob.filters ExportJob.totalRows ExportJob.lastCursor
         ExportJob.rowsExported] in Hrun2.
  rewrite Hprod1 in Hrun2.
  pose proof (run_cut_resume _ _ _ _ _ _ _ _ _ _ Hrun1 _ _ _ _ _ Hrun2) as Hrun3.
  destruct (run_deterministic _ _ _ _ _ _ _ _ _ _ _ Hrun _ _ _ _ _ Hrun3 He He2)
    as (-> & -> & -> & ->).
  rewrite (since_app _ _ _ Htrace1), (since_app _ _ _ Htrace2),
    (since_app _ _ _ Htrace).
  rewrite !messages_start, !fetched_rows_start, !advances_start.
  cbn [tail]. now rewrite messages_app, fetched_rows_app, advances_app.
Qed.

(** X10.  The status handler answers 404 exactly for an unknown id and
    otherwise reports the stored status, counts and cursor, without
    changing either table; read right after a creation it reports
    PENDING, no row exported, cursor 0 and the total counted by
    [POST]. *)
Theorem status_reports_the_stored_row (jobId : string) (w : World) :
  ∃ w',
    product w' = product w
    ∧ exportJob w' = exportJob w
    ∧ match exportJob w !! jobId with
      | None =>
          statusRoute.GET jobId w = (Returned (statusRoute.NotFound404 "Job not found"), w')
      | Some job =>
          statusRoute.GET jobId w
          = (Returned (statusRoute.Json200 (ExportJob.id job) (ExportJob.status job)
                         (ExportJob.rowsExported job) (ExportJob.totalRows job)
                         (ExportJob.lastCursor job)), w')
      end
    ∧ ∀ newId body w0 total,
        exportRoute.POST newId body w0 = (Returned (jobId, total), w) →
        fst (statusRoute.GET jobId w)
        = Returned (statusRoute.Json200 jobId "PENDING" 0 total 0).
Proof.
  exists (mkWorld (product w) (exportJob w)
            (trace w ++ [JobFindUnique jobId (exportJob w !! jobId)])).
  split; [reflexivity |]. split; [reflexivity |]. split.
  - unfold statusRoute.GET, mbind, M_bind, prisma_exportJob_findUnique.
    now destruct (exportJob w !! jobId).
  - intros newId body w0 total Hpost.
    destruct (POST_inv _ _ _ _ _ _ Hpost) as (<- & _ & _ & Hjob).
    unfold statusRoute.GET, mbind, M_bind, prisma_exportJob_findUnique.
    now rewrite Hjob.
Qed.
End MoreProperties.

Section CsvFile.
Import Csv.

(** The reader over the lines of any number of rows. *)
Lemma parse_rows (rows : list csvUtils.ProductRow) : ∀ (csv : string) recs (rest : string),
  streamRoute.encode rows = Ok csv →
  ∃ vals,
    Forall2 (λ r v, values r = Some v) rows vals
    ∧ Rfc4180.parse Rfc4180.Unquoted EmptyString [] recs (csv ++ rest)%string
      = Rfc4180.parse Rfc4180.Unquoted EmptyString [] (recs ++ vals) rest.
Proof.
  induction rows as [|r rows IH]; intros csv recs rest.
  - intros [= <-]. exists []. split; [constructor |]. now rewrite app_nil_r.
  - cbn [streamRoute.encode].
    destruct (csvUtils.rowToCsvLine r) as [line|] eqn:Hline; [|discriminate].
    destruct (streamRoute.encode rows) as [more|] eqn:Hmore; [|discriminate].
    intros [= <-].
    destruct (parse_row r line recs (more ++ rest)%string Hline) as (iso & Hiso & Hp).
    destruct (IH more (recs ++ [fields r iso]) rest eq_refl) as (vals & Hvals & Hq).
    exists (fields r iso :: vals). split.
    + constructor; [|exact Hvals]. unfold values. now rewrite Hiso.
    + rewrite append_assoc, Hp, Hq. now rewrite <- app_assoc.
Qed.

(** X6.  Whatever the number of rows, reading the header followed by
    the encoded lines gives back the header names and then, row by row,
    the seven values of each row. *)
Theorem csv_file_round_trip (rows : list csvUtils.ProductRow) (csv : string) :
  streamRoute.encode rows = Ok csv →
  ∃ vals,
    Forall2 (λ r v, values r = Some v) rows vals
    ∧ Rfc4180.parseCsv (csvUtils.CSV_HEADER ++ csv)%string
      = Some (header_fields :: vals).
Proof.
  intros Henc.
  destruct (parse_rows rows csv ([] ++ [header_fields]) EmptyString Henc)
    as (vals & Hvals & Hp).
  exists vals. split; [exact Hvals |].
  unfold Rfc4180.parseCsv. rewrite parse_header.
  rewrite append_empty_r in Hp. rewrite Hp. reflexivity.
Qed.

(** X11.  [escapeCsv] never writes two different values the same way. *)
Theorem escapeCsv_injective (a b : string) :
  csvUtils.escapeCsv a = csvUtils.escapeCsv b → a = b.
Proof.
  rewrite !escapeCsv_rfc4180. intros Heq.
  pose proof (parse_field_comma a [] [] EmptyString) as Ha.
  pose proof (parse_field_comma b [] [] EmptyString) as Hb.
  rewrite Heq, Hb in Ha. cbn in Ha. congruence.
Qed.
End CsvFile.


(** * The page and the stream together *)

Section PageFacts.
Context `{DataSource}.
Import LoopSpec Observe.

Implicit Types (cl : page.Client) (tr : list Effect).

Lemma receive_app jobId tr1 tr2 cl :
  page.receive jobId (tr1 ++ tr2) cl
  = page.receive jobId tr2 (page.receive jobId tr1 cl).
Proof. apply foldl_app. Qed.

Lemma receive_closed jobId tr cl :
  page.closed cl = true → page.receive jobId tr cl = cl.
Proof.
  intros Hcl. induction tr as [|ev tr IH]; [reflexivity |].
  cbn [page.receive foldl]. unfold page.deliver at 2. rewrite Hcl. exact IH.
Qed.

(** While the loop runs the page collects the messages and follows the
    [progress] events. *)
Lemma receive_run table jid jobId total wh n c r tr e c' r' :
  run table jid total wh n c r tr e c' r' →
  ∀ cl, page.closed cl = false →
  page.receive jobId tr cl
  = page.mkClient (page.progressed total (page.exportState cl) (advances tr))
      (page.csvParts cl ++ messages tr) false (page.downloads cl).
Proof.
  induction 1 as [c r | n c r Hnil | n c r rows err Hrows Hne Henc
                 | n c r rows csv p tr e c' r' Hrows Henc Hlast Hrun IH];
    intros cl Hcl.
  - cbn. rewrite app_nil_r. destruct cl; cbn in *; congruence.
  - cbn. unfold page.deliver. rewrite Hcl, app_nil_r.
    destruct cl; cbn in *; congruence.
  - cbn. unfold page.deliver. rewrite Hcl, app_nil_r.
    destruct cl; cbn in *; congruence.
  - rewrite advances_chunk.
    change (messages _) with (csv :: messages tr).
    match goal with
    | |- page.receive _ (?a :: ?b :: ?c0 :: ?d :: ?f :: tr) _ = _ =>
        change (a :: b :: c0 :: d :: f :: tr) with ([a; b; c0; d; f] ++ tr)
    end.
    rewrite receive_app.
    match goal with
    | |- page.receive _ tr ?cl1 = _ =>
        assert (Hstep : cl1
                        = page.mkClient
                            (page.progressed total (page.exportState cl)
                               [(csvUtils.id p, r + Z.of_nat (length rows))])
                            (page.csvParts cl ++ [csv]) false (page.downloads cl))
    end.
    { destruct cl as [st parts cls dl]. cbn in Hcl. subst cls. now destruct st. }
    rewrite Hstep, IH by reflexivity.
    cbn [page.exportState page.csvParts page.downloads page.progressed foldl snd].
    rewrite <- app_assoc. reflexivity.
Qed.

Lemma progressed_streaming total jobId r t parts advs :
  ∃ r' t' parts',
    page.progressed total (page.streaming jobId r t parts) advs
    = page.streaming jobId r' t' parts'.
Proof.
  revert r t parts. induction advs as [|a advs IH]; intros r t parts; cbn; eauto.
Qed.

(** The page over a whole run on an existing job. *)
Lemma receive_start jobId job tr e r' table jid total wh n c c' r cl :
  run table jid total wh n c r tr e c' r' →
  page.closed cl = false →
  page.receive jobId (prologue jid job ++ tr ++ epilogue jid e r') cl
  = let cl1 := page.mkClient
                 (page.progressed total (page.exportState cl) (advances tr))
                 (page.csvParts cl ++ csvUtils.CSV_HEADER :: messages tr) false
                 (page.downloads cl) in
    match e with
    | Break => page.on_done jobId r' cl1
    | Fails _ => page.error_event cl1
    | Cut => cl1
    end.
Proof.
  intros Hrun Hcl. rewrite !receive_app.
  assert (Hpro : page.receive jobId (prologue jid job) cl
                 = page.mkClient (page.exportState cl)
                     (page.csvParts cl ++ [csvUtils.CSV_HEADER]) false
                     (page.downloads cl)).
  { destruct cl as [st parts cls dl]. cbn in Hcl. subst cls. reflexivity. }
  rewrite Hpro, (receive_run _ _ jobId _ _ _ _ _ _ _ _ _ Hrun) by reflexivity.
  cbn [page.exportState page.csvParts page.downloads]. rewrite <- app_assoc.
  cbn [app]. destruct e; cbn [epilogue]; [| |reflexivity].
  - cbn [page.receive foldl]. unfold page.deliver. cbn [page.closed page.on_done].
    reflexivity.
  - cbn [page.receive foldl]. unfold page.deliver.
    cbn [page.closed page.error_event page.onerror page.on_error]. reflexivity.
Qed.

(** X12.  When the page opens the stream of an existing job with its
    state [streaming] and the run leaves the job DONE, the page ends in
    the state [done] with the stored [rowsExported], has closed the
    event source, and has made one download, named after the job, whose
    content is all the messages in order: the header and the lines of
    the fetched rows, which read back as the header names and the values
    of these rows. *)
Theorem download_is_the_export (jobId : string) (w w' : World) (job : ExportJob.t)
    (o : Outcome unit) (total0 : Z) :
  exportJob w !! jobId = Some job →
  streamRoute.GET jobId w = (o, w') →
  ExportJob.status <$> exportJob w' !! jobId = Some "DONE" →
  ∃ job' content vals,
    exportJob w' !! jobId = Some job'
    ∧ page.receive jobId (since w w') (page.opened jobId total0)
      = page.mkClient (page.done (ExportJob.rowsExported job'))
          (messages (since w w')) true
          [(("export-" ++ jobId ++ ".csv")%string, content)]
    ∧ content = text (messages (since w w'))
    ∧ Forall2 (λ r v, Csv.values r = Some v) (fetched_rows (since w w')) vals
    ∧ Rfc4180.parseCsv content = Some (Csv.header_fields :: vals).
Proof.
  intros Hjob Hget Hdone.
  destruct (GET_inv _ _ _ _ _ Hjob Hget)
    as (tr & e & c' & r' & Hrun & He & -> & _ & Hjobs & Htrace).
  rewrite Hjobs, lookup_insert_eq in Hdone. cbn in Hdone.
  assert (e = Break) as -> by (apply final_status_done; congruence).
  rewrite (since_app _ _ _ Htrace), fetched_rows_start, messages_start.
  pose proof (run_sent _ _ _ _ _ _ _ _ _ _ Hrun) as Hsent.
  destruct (parse_rows _ _ ([] ++ [Csv.header_fields]) EmptyString Hsent)
    as (vals & Hvals & Hp).
  exists (final_job job Break c' r'), (text (csvUtils.CSV_HEADER :: messages tr)), vals.
  split; [now rewrite Hjobs, lookup_insert_eq |].
  split; [|split; [reflexivity | split; [exact Hvals |]]].
  - rewrite (receive_start jobId job _ _ _ _ _ _ _ _ _ _ _ _ Hrun) by reflexivity.
    reflexivity.
  - cbn [text foldr]. fold (text (messages tr)).
    unfold Rfc4180.parseCsv. rewrite parse_header.
    rewrite append_empty_r in Hp. rewrite Hp. reflexivity.
Qed.

(** X13.  When the run leaves the job FAILED, the [error] event reaches
    the listener added for it and then [es.onerror]: the first makes the
    state [failed], the second, finding it no longer [streaming], makes
    it [idle].  The page ends [idle], with the event source closed and
    no download. *)
Theorem failed_export_leaves_the_page_idle (jobId : string) (w w' : World)
    (job : ExportJob.t) (o : Outcome unit) (total0 : Z) :
  exportJob w !! jobId = Some job →
  streamRoute.GET jobId w = (o, w') →
  ExportJob.status <$> exportJob w' !! jobId = Some "FAILED" →
  ∃ r t,
    page.receive jobId (since w w') (page.opened jobId total0)
    = page.onerror (page.mkClient (page.failed jobId r t)
                      (messages (since w w')) true [])
    ∧ page.exportState (page.receive jobId (since w w') (page.opened jobId total0))
      = page.idle
    ∧ page.closed (page.receive jobId (since w w') (page.opened jobId total0)) = true
    ∧ page.downloads (page.receive jobId (since w w') (page.opened jobId total0)) = [].
Proof.
  intros Hjob Hget Hfailed.
  destruct (GET_inv _ _ _ _ _ Hjob Hget)
    as (tr & e & c' & r' & Hrun & He & -> & _ & Hjobs & Htrace).
  rewrite Hjobs, lookup_insert_eq in Hfailed. cbn in Hfailed.
  destruct e as [|err|]; cbn in Hfailed; try congruence.
  rewrite (since_app _ _ _ Htrace), messages_start.
  rewrite (receive_start jobId job _ _ _ _ _ _ _ _ _ _ _ _ Hrun) by reflexivity.
  cbn zeta. cbn [page.opened page.exportState page.csvParts page.downloads app].
  destruct (progressed_streaming (ExportJob.totalRows job) jobId 0 total0
              (page.Literal []) (advances tr)) as (r1 & t1 & parts1 & ->).
  exists r1, t1. repeat split.
Qed.
End PageFacts.

(** * The seeding script *)

Section SeedFacts.
Variables (price_at : Z → spec_float) (quantity_at : Z → Z).

Lemma ceil_div_bounds (total size : Z) :
  0 < size →
  (seed.ceil_div total size - 1) * size < total ≤ seed.ceil_div total size * size.
Proof.
  intros Hsize. unfold seed.ceil_div.
  pose proof (Z.div_mod (- total) size ltac:(lia)) as Hdm.
  pose proof (Z.mod_pos_bound (- total) size Hsize) as Hmod. nia.
Qed.

(** The index ranges of the first [k] batches put end to end. *)
Lemma ranges_concat (total size : Z) (k : nat) :
  0 < size → 0 ≤ total → Z.of_nat k ≤ seed.ceil_div total size →
  concat ((λ b, seqZ (b * size) (Z.min size (total - b * size)))
            <$> seqZ 0 (Z.of_nat k))
  = seqZ 0 (Z.min (Z.of_nat k * size) total).
Proof.
  intros Hsize Htotal. pose proof (ceil_div_bounds total size Hsize) as Hb.
  induction k as [|k IH]; intros Hk.
  - cbn. rewrite Z.min_l by lia. reflexivity.
  - rewrite seqZ_S, fmap_app, concat_app, IH by lia.
    cbn [fmap list_fmap concat]. rewrite app_nil_r, Z.add_0_l.
    assert (Hlt : Z.of_nat k * size < total) by nia.
    rewrite (Z.min_l (Z.of_nat k * size)) by lia.
    rewrite <- (Z.add_0_l (Z.of_nat k * size)) at 2.
    rewrite <- seqZ_app by lia. f_equal. lia.
Qed.

Lemma concat_fmap_ranges {A B} (f : A → B) (g : Z → list A) (l : list Z) :
  concat ((λ b, f <$> g b) <$> l) = f <$> concat (g <$> l).
Proof.
  induction l as [|b l IH]; [reflexivity |].
  cbn [fmap list_fmap concat]. rewrite fmap_app. f_equal. exact IH.
Qed.

(** All the batches put end to end. *)
Lemma batches_concat (total size : Z) :
  0 < size → 0 ≤ total →
  concat (seed.batches price_at quantity_at total size)
  = seed.item price_at quantity_at <$> seqZ 0 total.
Proof.
  intros Hsize Htotal. pose proof (ceil_div_bounds total size Hsize) as Hb.
  unfold seed.batches, seed.batch. cbn zeta.
  etrans; [apply (concat_fmap_ranges (seed.item price_at quantity_at)
                    (λ b, seqZ (b * size) (Z.min size (total - b * size)))) |].
  f_equal.
  rewrite <- (Z2Nat.id (seed.ceil_div total size)) at 1 by nia.
  rewrite ranges_concat by lia. f_equal. lia.
Qed.

(** X14.  For a positive batch size, the batches of the seeding loop put
    end to end are the rows of the indices [0] to [total - 1], each once
    and in order; there are [ceil(total / size)] batches, none is empty
    and none has more than [size] rows.  With the constants of the
    script that is 200 batches and 100,000 rows. *)
Theorem seed_batches_cover_every_index (total size : Z) :
  0 < size → 0 ≤ total →
  concat (seed.batches price_at quantity_at total size)
  = seed.item price_at quantity_at <$> seqZ 0 total
  ∧ Z.of_nat (length (seed.batches price_at quantity_at total size))
    = seed.ceil_div total size
  ∧ Forall (λ b, (0 < length b)%nat ∧ Z.of_nat (length b) ≤ size)
      (seed.batches price_at quantity_at total size)
  ∧ seed.ceil_div seed.TOTAL seed.BATCH_SIZE = 200
  ∧ Z.of_nat (length (concat (seed.main price_at quantity_at))) = 100000.
Proof.
  intros Hsize Htotal. pose proof (ceil_div_bounds total size Hsize) as Hb.
  assert (Hn : 0 ≤ seed.ceil_div total size) by nia.
  split; [now apply batches_concat |]. split; [|split; [|split]].
  - unfold seed.batches. rewrite length_fmap, length_seqZ. lia.
  - unfold seed.batches. apply Forall_fmap, Forall_seqZ. intros b Hbr. cbn.
    unfold seed.batch. rewrite length_fmap, length_seqZ.
    assert (b * size < total) by nia. lia.
  - reflexivity.
  - unfold seed.main.
    rewrite batches_concat, length_fmap, length_seqZ by (vm_compute; congruence).
    reflexivity.
Qed.

Lemma at_in (list : list string) (i : Z) :
  0 ≤ i < seed.len list → seed.at_ list i ∈ list.
Proof.
  intros Hi. unfold seed.at_, seed.len in *.
  destruct (Z.ltb_spec i 0) as [|_]; [lia |].
  destruct (list !! Z.to_nat i) as [s|] eqn:Hs.
  - cbn. apply list_elem_of_lookup. eauto.
  - apply lookup_ge_None in Hs. lia.
Qed.

(** X15.  For every index the loop reaches (none is negative), a seeded
    row takes its category from the ten categories and its status from
    the three statuses, and its name, category and status hold no comma,
    quote or line feed: [escapeCsv] writes them unchanged. *)
Theorem seeded_values_need_no_quotes (idx : Z) :
  0 ≤ idx →
  seed.category (seed.item price_at quantity_at idx) ∈ seed.CATEGORIES
  ∧ seed.status (seed.item price_at quantity_at idx) ∈ seed.STATUSES
  ∧ csvUtils.escapeCsv (seed.name (seed.item price_at quantity_at idx))
    = seed.name (seed.item price_at quantity_at idx)
  ∧ csvUtils.escapeCsv (seed.category (seed.item price_at quantity_at idx))
    = seed.category (seed.item price_at quantity_at idx)
  ∧ csvUtils.escapeCsv (seed.status (seed.item price_at quantity_at idx))
    = seed.status (seed.item price_at quantity_at idx).
Proof.
  intros Hidx.
  assert (Hplain : ∀ l i, Forall (λ s, Csv.has_special s = false) l →
                          0 ≤ i < seed.len l →
                          Csv.has_special (seed.at_ l i) = false).
  { intros l i Hl Hi. apply (proj1 (Forall_forall _ _) Hl). now apply at_in. }
  assert (Hrem : ∀ l, 0 < seed.len l →
                      ∀ j, 0 ≤ j → 0 ≤ Z.rem j (seed.len l) < seed.len l)
    by (intros l Hl j Hj; now apply Z.rem_bound_pos).
  cbn [seed.item seed.category seed.status seed.name].
  split; [apply at_in, Hrem; [reflexivity | lia] |].
  split; [apply at_in, Hrem; [reflexivity | lia] |].
  rewrite !escapeCsv_rfc4180.
  split; [|split]; apply rfc4180_field_plain.
  - rewrite !has_special_app.
    rewrite (Hplain seed.NAMES_PREFIX), (Hplain seed.NAMES_SUFFIX), plain_Int_toString;
      try (apply Hrem; [reflexivity | lia]); [reflexivity | |];
      repeat constructor.
  - apply Hplain; [repeat constructor | apply Hrem; [reflexivity | lia]].
  - apply Hplain; [repeat constructor | apply Hrem; [reflexivity | lia]].
Qed.
End SeedFacts.


(** * The further properties at concrete inputs *)

Import LoopSpec Observe.

Lemma pair_fst {A B} (x : A * B) (a : A) : fst x = a → x = (a, snd x).
Proof. destruct x. cbn. now intros ->. Defined.

Lemma stream_of_unknown_job_witness :
  exportJob Sample.jobless_world !! "job2" = None
  ∧ ∃ o w',
      @streamRoute.GET Sample.substring "job2" Sample.jobless_world = (o, w')
      ∧ product w' = product Sample.jobless_world
      ∧ exportJob w' = exportJob Sample.jobless_world
      ∧ since Sample.jobless_world w'
        = [ JobFindUnique "job2" None;
            SendEvent "error" (ErrorData "Job not found");
            Close; Close ]
      ∧ events (since Sample.jobless_world w') = [("error", ErrorData "Job not found")]
      ∧ messages (since Sample.jobless_world w') = []
      ∧ fetches (since Sample.jobless_world w') = [].
Proof.
  split; [evaluate |].
  apply (stream_of_unknown_job (H := Sample.substring) "job2" Sample.jobless_world).
  evaluate.
Defined.

Lemma stream_ends_with_one_verdict_witness :
  exportJob Sample.small_world !! "job1" = Some (Sample.fresh_job 5)
  ∧ ∃ job' verdict,
      fst Sample.small_run = Returned tt
      ∧ exportJob (snd Sample.small_run) !! "job1" = Some job'
      ∧ events (since Sample.small_world (snd Sample.small_run))
        = ((λ a, ("progress", ProgressData (snd a)
                                (ExportJob.totalRows (Sample.fresh_job 5))))
             <$> advances (since Sample.small_world (snd Sample.small_run)))
          ++ [verdict]
      ∧ last (since Sample.small_world (snd Sample.small_run)) = Some Close
      ∧ ((ExportJob.status job' = "DONE"
          ∧ verdict = ("done", DoneData (ExportJob.rowsExported job')))
         ∨ (ExportJob.status job' = "FAILED"
            ∧ ∃ err, verdict = ("error", ErrorData err))).
Proof.
  split; [evaluate |].
  apply (stream_ends_with_one_verdict (H := Sample.substring) "job1"
           Sample.small_world (snd Sample.small_run) (Sample.fresh_job 5)
           (fst Sample.small_run)).
  - evaluate.
  - apply pair_eta.
Defined.

Lemma every_chunk_sent_is_persisted_witness :
  exportJob Sample.resumed_world !! "job1" = Some Sample.resumed_job
  ∧ ∃ chunks,
      messages (since Sample.resumed_world (snd Sample.resumed_run))
      = csvUtils.CSV_HEADER :: chunks
      ∧ length chunks
        = length (advances (since Sample.resumed_world (snd Sample.resumed_run)))
      ∧ progress_events (since Sample.resumed_world (snd Sample.resumed_run))
        = (λ a, (snd a, ExportJob.totalRows Sample.resumed_job))
            <$> advances (since Sample.resumed_world (snd Sample.resumed_run)).
Proof.
  split; [evaluate |].
  apply (every_chunk_sent_is_persisted (H := Sample.substring) 3 "job1"
           Sample.resumed_world (snd Sample.resumed_run) Sample.resumed_job
           (fst Sample.resumed_run)).
  - evaluate.
  - apply pair_eta.
Defined.

Lemma fetched_rows_are_right_witness :
  exportJob Sample.resumed_world !! "job1" = Some Sample.resumed_job
  ∧ fetched_rows (since Sample.resumed_world (snd Sample.resumed_run))
    = [Sample.row 3; Sample.row 4; Sample.row 5]
  ∧ Forall (λ p, p ∈ product Sample.resumed_world
                 ∧ @matches Sample.substring
                     (streamRoute.where_of (ExportJob.filters Sample.resumed_job)) p
                 ∧ ExportJob.lastCursor Sample.resumed_job < csvUtils.id p)
      (fetched_rows (since Sample.resumed_world (snd Sample.resumed_run)))
  ∧ StronglySorted id_le
      (fetched_rows (since Sample.resumed_world (snd Sample.resumed_run)))
  ∧ (NoDup (csvUtils.id <$> product Sample.resumed_world) →
     StronglySorted id_lt
       (fetched_rows (since Sample.resumed_world (snd Sample.resumed_run)))
     ∧ NoDup (fetched_rows (since Sample.resumed_world (snd Sample.resumed_run)))).
Proof.
  split; [evaluate |]. split; [evaluate |].
  apply (fetched_rows_are_right (H := Sample.substring) 3 "job1"
           Sample.resumed_world (snd Sample.resumed_run) Sample.resumed_job
           (fst Sample.resumed_run)).
  - evaluate.
  - apply pair_eta.
Defined.

Lemma complete_export_is_the_scan_witness :
  exportJob Sample.small_world !! "job1" = Some (Sample.fresh_job 5)
  ∧ ExportJob.status <$> exportJob (snd Sample.small_run) !! "job1" = Some "DONE"
  ∧ fetched_rows (since Sample.small_world (snd Sample.small_run))
    = merge_sort id_le
        (filter (@matches Sample.substring
                   (Where.with_id_gt
                      (streamRoute.where_of (ExportJob.filters (Sample.fresh_job 5)))
                      (ExportJob.lastCursor (Sample.fresh_job 5))))
           (product Sample.small_world))
  ∧ fetched_rows (since Sample.small_world (snd Sample.small_run))
    ≡ₚ filter (λ p, @matches Sample.substring
                      (streamRoute.where_of (ExportJob.filters (Sample.fresh_job 5))) p
                    ∧ ExportJob.lastCursor (Sample.fresh_job 5) < csvUtils.id p)
         (product Sample.small_world)
  ∧ ∃ csv,
      streamRoute.encode (fetched_rows (since Sample.small_world (snd Sample.small_run)))
      = Ok csv
      ∧ text (messages (since Sample.small_world (snd Sample.small_run)))
        = (csvUtils.CSV_HEADER ++ csv)%string.
Proof.
  split; [evaluate |]. split; [evaluate |].
  apply (complete_export_is_the_scan (H := Sample.substring) "job1"
           Sample.small_world (snd Sample.small_run) (Sample.fresh_job 5)
           (fst Sample.small_run)).
  - evaluate.
  - apply (sample_rows_key 5).
  - apply pair_eta.
  - evaluate.
Defined.

Lemma csv_file_round_trip_witness :
  streamRoute.encode [Sample.ultra_row; Sample.plain_row]
  = Ok (Sample.ultra_line ++ Sample.plain_line)%string
  ∧ ∃ vals,
      Forall2 (λ r v, Csv.values r = Some v) [Sample.ultra_row; Sample.plain_row] vals
      ∧ Rfc4180.parseCsv
          (csvUtils.CSV_HEADER ++ Sample.ultra_line ++ Sample.plain_line)%string
        = Some (Csv.header_fields :: vals).
Proof.
  split; [evaluate |].
  apply (csv_file_round_trip [Sample.ultra_row; Sample.plain_row]
           (Sample.ultra_line ++ Sample.plain_line)%string).
  evaluate.
Defined.

Lemma created_job_exports_its_total_witness :
  Sample.creation = (Returned ("job2", 3), snd Sample.creation)
  ∧ ∃ w2 job',
      @streamRoute.GET Sample.substring "job2" (snd Sample.creation) = (Returned tt, w2)
      ∧ exportJob w2 !! "job2" = Some job'
      ∧ ExportJob.status job' = "DONE"
      ∧ ExportJob.rowsExported job' = 3
      ∧ ExportJob.totalRows job' = 3
      ∧ last (events (since (snd Sample.creation) w2)) = Some ("done", DoneData 3).
Proof.
  split; [evaluate |].
  apply (created_job_exports_its_total (H := Sample.substring) "job2" Sample.toys_body
           Sample.jobless_world (snd Sample.creation) "job2" 3).
  - evaluate.
  - apply (sample_rows_key 3).
  - apply (sample_rows_positive 3).
  - apply (sample_rows_encodable 3).
Defined.

Lemma stream_touches_one_row_witness :
  product (snd Sample.resumed_run) = product Sample.resumed_world
  ∧ (∀ other, other ≠ "job1" →
              exportJob (snd Sample.resumed_run) !! other
              = exportJob Sample.resumed_world !! other)
  ∧ match exportJob Sample.resumed_world !! "job1" with
    | None => exportJob (snd Sample.resumed_run) !! "job1" = None
    | Some job =>
        ∃ job', exportJob (snd Sample.resumed_run) !! "job1" = Some job'
                ∧ ExportJob.id job' = ExportJob.id job
                ∧ ExportJob.filters job' = ExportJob.filters job
                ∧ ExportJob.totalRows job' = ExportJob.totalRows job
    end.
Proof.
  apply (stream_touches_one_row (H := Sample.substring) 3 "job1"
           Sample.resumed_world (snd Sample.resumed_run) (fst Sample.resumed_run)).
  apply pair_eta.
Defined.

Lemma resume_sends_the_rest_witness :
  exportJob Sample.mid_world !! "job1" = Some (Sample.fresh_job 1200)
  ∧ fst Sample.first_pass = Stopped
  ∧ length (fetched_rows (since Sample.mid_world (snd Sample.first_pass))) = 1000%nat
  ∧ tail (messages (since Sample.mid_world (snd Sample.first_pass)))
    ++ tail (messages (since (snd Sample.first_pass) (snd Sample.second_pass)))
    = tail (messages (since Sample.mid_world (snd Sample.one_pass)))
  ∧ fetched_rows (since Sample.mid_world (snd Sample.first_pass))
    ++ fetched_rows (since (snd Sample.first_pass) (snd Sample.second_pass))
    = fetched_rows (since Sample.mid_world (snd Sample.one_pass))
  ∧ advances (since Sample.mid_world (snd Sample.first_pass))
    ++ advances (since (snd Sample.first_pass) (snd Sample.second_pass))
    = advances (since Sample.mid_world (snd Sample.one_pass)).
Proof.
  split; [evaluate |]. split; [evaluate |]. split; [evaluate |].
  apply (resume_sends_the_rest (H := Sample.substring) 1 "job1"
           Sample.mid_world (snd Sample.first_pass) (snd Sample.second_pass)
           (snd Sample.one_pass) (Sample.fresh_job 1200)
           (fst Sample.second_pass) (fst Sample.one_pass)).
  - evaluate.
  - apply pair_fst. evaluate.
  - apply pair_eta.
  - apply pair_eta.
Defined.

Lemma escapeCsv_injective_witness :
  csvUtils.escapeCsv ("Ultra, " ++ "Widget")%string = csvUtils.escapeCsv "Ultra, Widget"
  ∧ ("Ultra, " ++ "Widget")%string = "Ultra, Widget".
Proof.
  split; [evaluate |].
  apply (escapeCsv_injective ("Ultra, " ++ "Widget")%string "Ultra, Widget").
  evaluate.
Defined.

Lemma download_is_the_export_witness :
  exportJob Sample.small_world !! "job1" = Some (Sample.fresh_job 5)
  ∧ ExportJob.status <$> exportJob (snd Sample.small_run) !! "job1" = Some "DONE"
  ∧ ∃ job' content vals,
      exportJob (snd Sample.small_run) !! "job1" = Some job'
      ∧ page.receive "job1" (since Sample.small_world (snd Sample.small_run))
          (page.opened "job1" 5)
        = page.mkClient (page.done (ExportJob.rowsExported job'))
            (messages (since Sample.small_world (snd Sample.small_run))) true
            [(("export-" ++ "job1" ++ ".csv")%string, content)]
      ∧ content = text (messages (since Sample.small_world (snd Sample.small_run)))
      ∧ Forall2 (λ r v, Csv.values r = Some v)
          (fetched_rows (since Sample.small_world (snd Sample.small_run))) vals
      ∧ Rfc4180.parseCsv content = Some (Csv.header_fields :: vals).
Proof.
  split; [evaluate |]. split; [evaluate |].
  apply (download_is_the_export (H := Sample.substring) "job1"
           Sample.small_world (snd Sample.small_run) (Sample.fresh_job 5)
           (fst Sample.small_run) 5).
  - evaluate.
  - apply pair_eta.
  - evaluate.
Defined.

Lemma failed_export_leaves_the_page_idle_witness :
  exportJob Sample.broken_world !! "job1" = Some (Sample.fresh_job 3)
  ∧ ExportJob.status <$> exportJob (snd Sample.broken_run) !! "job1" = Some "FAILED"
  ∧ ∃ r t,
      page.receive "job1" (since Sample.broken_world (snd Sample.broken_run))
        (page.opened "job1" 3)
      = page.onerror
          (page.mkClient (page.failed "job1" r t)
             (messages (since Sample.broken_world (snd Sample.broken_run))) true [])
      ∧ page.exportState
          (page.receive "job1" (since Sample.broken_world (snd Sample.broken_run))
             (page.opened "job1" 3))
        = page.idle
      ∧ page.closed
          (page.receive "job1" (since Sample.broken_world (snd Sample.broken_run))
             (page.opened "job1" 3))
        = true
      ∧ page.downloads
          (page.receive "job1" (since Sample.broken_world (snd Sample.broken_run))
             (page.opened "job1" 3))
        = [].
Proof.
  split; [evaluate |]. split; [evaluate |].
  apply (failed_export_leaves_the_page_idle (H := Sample.substring) "job1"
           Sample.broken_world (snd Sample.broken_run) (Sample.fresh_job 3)
           (fst Sample.broken_run) 3).
  - evaluate.
  - apply pair_eta.
  - evaluate.
Defined.

Lemma seed_batches_cover_every_index_witness :
  concat (seed.batches Sample.fixed_price Sample.fixed_quantity 1200 500)
  = seed.item Sample.fixed_price Sample.fixed_quantity <$> seqZ 0 1200
  ∧ Z.of_nat (length (seed.batches Sample.fixed_price Sample.fixed_quantity 1200 500))
    = seed.ceil_div 1200 500
  ∧ Forall (λ b, (0 < length b)%nat ∧ Z.of_nat (length b) ≤ 500)
      (seed.batches Sample.fixed_price Sample.fixed_quantity 1200 500)
  ∧ seed.ceil_div seed.TOTAL seed.BATCH_SIZE = 200
  ∧ Z.of_nat (length (concat (seed.main Sample.fixed_price Sample.fixed_quantity)))
    = 100000.
Proof.
  apply (seed_batches_cover_every_index Sample.fixed_price Sample.fixed_quantity
           1200 500); lia.
Defined.

Lemma seeded_values_need_no_quotes_witness :
  seed.name (seed.item Sample.fixed_price Sample.fixed_quantity 7) = "Nano Widget 8"
  ∧ seed.category (seed.item Sample.fixed_price Sample.fixed_quantity 7)
    ∈ seed.CATEGORIES
  ∧ seed.status (seed.item Sample.fixed_price Sample.fixed_quantity 7) ∈ seed.STATUSES
  ∧ csvUtils.escapeCsv (seed.name (seed.item Sample.fixed_price Sample.fixed_quantity 7))
    = seed.name (seed.item Sample.fixed_price Sample.fixed_quantity 7)
  ∧ csvUtils.escapeCsv
      (seed.category (seed.item Sample.fixed_price Sample.fixed_quantity 7))
    = seed.category (seed.item Sample.fixed_price Sample.fixed_quantity 7)
  ∧ csvUtils.escapeCsv (seed.status (seed.item Sample.fixed_price Sample.fixed_quantity 7))
    = seed.status (seed.item Sample.fixed_price Sample.fixed_quantity 7).
Proof.
  split; [evaluate |].
  apply (seeded_values_need_no_quotes Sample.fixed_price Sample.fixed_quantity 7).
  lia.
Defined.
